(** * Element-level assembly of the time-harmonic EM wave equations

    A shallow embedding of [mm_fill_em.c] (Goma): the volume assembler
    [assemble_emwave], the far-field boundary kernel
    [apply_em_farfield_direct] and the helper [complex_cross_vectors].

    Conventions of the embedding:
    - a C [double] is an ideal real number ([R]); rounding, infinities and
      NaN are outside the model.  Division in [R] is total, with a
      quotient by zero equal to 0, where the code has an infinity or a
      NaN: a statement about a value that goes through a division carries
      the hypothesis that the divisor is not zero, and the divisions by
      [n] and [k] of [assemble_emwave] are modelled a second time with
      their domain kept ([checked_div]);
    - a C [complex] is a pair of reals with the C99 arithmetic written out;
    - a C array is a total function from its index; a write is a pointwise
      update;
    - global structures ([pd], [upd], [fv], [bf], [ei], [af], [mp], [xfem])
      are fields of one read-only record, the local accumulator [lec] is
      threaded through explicitly;
    - a local that the source reads before any assignment takes its value
      from an explicit record of indeterminate initial contents. *)

From Stdlib Require Import Reals ZArith List Lra Lia Bool.
Import ListNotations.

Open Scope R_scope.

(* ================================================================== *)
(** ** Complex numbers as the source uses them ([<complex.h>]) *)

Record complex : Type := mkC { creal : R; cimag : R }.

Declare Scope C_scope.
Delimit Scope C_scope with C.
Bind Scope C_scope with complex.

Definition RtoC (x : R) : complex := mkC x 0.
Definition ZtoC (z : Z) : complex := RtoC (IZR z).

(** [_Complex_I] *)
Definition Complex_I : complex := mkC 0 1.

Definition Cadd (a b : complex) : complex :=
  mkC (creal a + creal b) (cimag a + cimag b).
Definition Copp (a : complex) : complex :=
  mkC (- creal a) (- cimag a).
Definition Csub (a b : complex) : complex :=
  mkC (creal a - creal b) (cimag a - cimag b).
Definition Cmul (a b : complex) : complex :=
  mkC (creal a * creal b - cimag a * cimag b)
      (creal a * cimag b + cimag a * creal b).
Definition Cnorm2 (a : complex) : R :=
  creal a * creal a + cimag a * cimag a.
Definition Cdiv (a b : complex) : complex :=
  mkC ((creal a * creal b + cimag a * cimag b) / Cnorm2 b)
      ((cimag a * creal b - creal a * cimag b) / Cnorm2 b).

Infix "+" := Cadd : C_scope.
Infix "-" := Csub : C_scope.
Infix "*" := Cmul : C_scope.
Infix "/" := Cdiv : C_scope.
Notation "- x" := (Copp x) : C_scope.

(** [SQUARE(x)] of std.h: the product of the argument with itself. *)
Definition SQUARE (z : complex) : complex := (z * z)%C.

(** [csqrt]: the principal square root, with a non-negative real part and
    the imaginary part carrying the sign of the argument's. *)
Definition Cabs (z : complex) : R := sqrt (Cnorm2 z).
Definition csqrt (z : complex) : complex :=
  mkC (sqrt ((Cabs z + creal z) / 2))
      ((if Rle_dec 0 (cimag z) then 1 else -1)
       * sqrt ((Cabs z - creal z) / 2)).

(** A finite sum [f 0 + ... + f (n-1)], used to state the formulas of the
    specification. *)
Fixpoint Csum (n : nat) (f : nat -> complex) : complex :=
  match n with
  | O => RtoC 0
  | S m => (Csum m f + f m)%C
  end.

Fixpoint Rsum (n : nat) (f : nat -> R) : R :=
  match n with
  | O => 0
  | S m => Rsum m f + f m
  end.

(* ================================================================== *)
(** ** Algebra utilities *)

(** Modelled from the spec: [permute] is declared outside this file (it is
    only called here).  The permutation symbol is +1 on the even
    permutations of (0,1,2), -1 on the odd ones and 0 when an index
    repeats. *)
Definition permute (i j k : nat) : Z :=
  match i, j, k with
  | 0, 1, 2 | 1, 2, 0 | 2, 0, 1 => 1%Z
  | 0, 2, 1 | 2, 1, 0 | 1, 0, 2 => (-1)%Z
  | _, _, _ => 0%Z
  end%nat.

(** Modelled from the spec: [delta] is declared outside this file.  The
    Kronecker delta is 1 on equal indices and 0 otherwise. *)
Definition delta (m n : nat) : Z := if Nat.eqb m n then 1%Z else 0%Z.

(** The fixed array dimension [DIM] of the source. *)
Definition DIM : nat := 3.

(* ================================================================== *)
(** ** Arrays and loops *)

(** [for (i = 0; i < n; i++) body], threading the state. *)
Definition for_loop {S : Type} (n : nat) (body : nat -> S -> S) (s : S) : S :=
  fold_left (fun st i => body i st) (seq 0 n) s.

(** A write [a[i] = v] to an array indexed by [nat]. *)
Definition upd {A : Type} (a : nat -> A) (i : nat) (v : A) : nat -> A :=
  fun x => if Nat.eqb x i then v else a x.

(** A write [a[i] = v] to an array indexed by an integer identifier. *)
Definition updZ {A : Type} (a : Z -> A) (i : Z) (v : A) : Z -> A :=
  fun x => if Z.eqb x i then v else a x.

(** [memset(v, 0, n * sizeof(complex))]: the first [n] cells become zero. *)
Definition memset0 (v : nat -> complex) (n : nat) : nat -> complex :=
  fun x => if Nat.ltb x n then RtoC 0 else v x.

(* ================================================================== *)
(** ** [complex_cross_vectors] *)

(** [v2 = v0 x v1]; [v2] is the output array as it is on entry, the result
    is the array on exit.  The three arrays are distinct objects. *)
Definition complex_cross_vectors (v0 v1 v2 : nat -> complex) : nat -> complex :=
  let v2 := memset0 v2 DIM in
  for_loop DIM (fun i v2 =>
    for_loop DIM (fun j v2 =>
      for_loop DIM (fun k v2 =>
        upd v2 k (v2 k + ZtoC (permute i j k) * v0 i * v1 j)%C) v2) v2) v2.

(* ================================================================== *)
(** ** Constants of the missing headers *)

(** Modelled from the spec: the identifiers of [rf_fem_const.h],
    [rf_bc_const.h] and [rf_masks.h] are not part of the sources.  They are
    kept symbolic: twelve field-variable identifiers, the identifiers of
    the other coupled unknowns, the term-type bit masks with their
    multiplier slots, and the four far-field boundary-condition kinds. *)
Record Consts : Type := {
  EM_E1_REAL : Z; EM_E2_REAL : Z; EM_E3_REAL : Z;
  EM_E1_IMAG : Z; EM_E2_IMAG : Z; EM_E3_IMAG : Z;
  EM_H1_REAL : Z; EM_H2_REAL : Z; EM_H3_REAL : Z;
  EM_H1_IMAG : Z; EM_H2_IMAG : Z; EM_H3_IMAG : Z;
  TEMPERATURE : Z;
  MESH_DISPLACEMENT1 : Z;
  MASS_FRACTION : Z;
  MAX_PROB_VAR : Z;
  T_ADVECTION : Z;
  T_DIFFUSION : Z;
  LOG2_ADVECTION : Z;
  LOG2_DIFFUSION : Z;
  EM_ER_FARFIELD_DIRECT_BC : Z;
  EM_EI_FARFIELD_DIRECT_BC : Z;
  EM_HR_FARFIELD_DIRECT_BC : Z;
  EM_HI_FARFIELD_DIRECT_BC : Z
}.

(** The twelve field-variable identifiers the switches of
    [assemble_emwave] recognise, in the order of their case labels. *)
Definition EM_field_vars (K : Consts) : list Z :=
  [ EM_E1_REAL K; EM_E1_IMAG K; EM_E2_REAL K; EM_E2_IMAG K;
    EM_E3_REAL K; EM_E3_IMAG K; EM_H1_REAL K; EM_H1_IMAG K;
    EM_H2_REAL K; EM_H2_IMAG K; EM_H3_REAL K; EM_H3_IMAG K ].

(** The four boundary-condition kinds [apply_em_farfield_direct] knows. *)
Definition farfield_kinds (K : Consts) : list Z :=
  [ EM_ER_FARFIELD_DIRECT_BC K; EM_EI_FARFIELD_DIRECT_BC K;
    EM_HR_FARFIELD_DIRECT_BC K; EM_HI_FARFIELD_DIRECT_BC K ].

(* ================================================================== *)
(** ** Global structures read by the assemblers *)

(** [CONDUCTIVITY_DEPENDENCE_STRUCT]: sensitivities of a material
    coefficient to temperature, mesh position and species dofs. *)
Record CONDUCTIVITY_DEPENDENCE_STRUCT : Type := {
  cd_T : nat -> R;
  cd_X : nat -> nat -> R;
  cd_C : nat -> nat -> R
}.

(** [bf[v]]: the basis-function data of one variable at the Gauss point. *)
Record BASIS_FUNCTIONS : Type := {
  detJ : R;
  phi : nat -> R;
  grad_phi : nat -> nat -> R;
  d_det_J_dm : nat -> nat -> R;
  d_grad_phi_dmesh : nat -> nat -> nat -> nat -> R
}.

Record Env : Type := {
  (* pd *)
  Num_Dim : nat;
  Num_Species_Eqn : nat;
  pd_e : Z -> Z;
  pd_v : Z -> Z;
  pd_i : Z -> Z;
  pd_etm : Z -> Z -> R;
  (* upd *)
  Acoustic_Frequency : R;
  upd_ep : Z -> Z;
  upd_vp : Z -> Z;
  (* fv *)
  fv_wt : R;
  fv_h3 : R;
  fv_dh3dq : nat -> R;
  fv_snormal : nat -> R;
  fv_em_er : nat -> R;
  fv_em_ei : nat -> R;
  fv_em_hr : nat -> R;
  fv_em_hi : nat -> R;
  (* bf, ei, af, mp *)
  bf : Z -> BASIS_FUNCTIONS;
  ei_dof : Z -> nat;
  ei_ielem_shape : Z;
  af_Assemble_Residual : Z;
  af_Assemble_Jacobian : Z;
  mp_permittivity : R;
  (* the vector dimension VIM *)
  VIM : nat;
  (* xfem: NULL, or the answer of xfem_dof_state as
     (xfem_active, extended_dof) for a dof, an interpolation and a shape *)
  xfem : option (nat -> Z -> Z -> bool * bool);
  (* the material models, called with the time *)
  refractive_index : R -> R * CONDUCTIVITY_DEPENDENCE_STRUCT;
  extinction_index : R -> R * CONDUCTIVITY_DEPENDENCE_STRUCT
}.

(** [lec]: the local residual vector and Jacobian block. *)
Record Local_Element_Contributions : Type := {
  lec_R : Z -> nat -> R;
  lec_J : Z -> Z -> nat -> nat -> R
}.

(** [lec->R[peqn][i] += x] *)
Definition add_R (Rv : Z -> nat -> R) (peqn : Z) (i : nat) (x : R)
  : Z -> nat -> R :=
  updZ Rv peqn (upd (Rv peqn) i (Rv peqn i + x)).

(** [lec->J[peqn][pvar][i][j] += x] *)
Definition add_J (J : Z -> Z -> nat -> nat -> R) (peqn pvar : Z)
  (i j : nat) (x : R) : Z -> Z -> nat -> nat -> R :=
  updZ J peqn (updZ (J peqn) pvar
    (upd (J peqn pvar) i (upd (J peqn pvar i) j (J peqn pvar i j + x)))).

(** A C condition on an [int]. *)
Definition truthy (z : Z) : bool := negb (Z.eqb z 0).

(** [mag_permeability], the constant both routines declare. *)
Definition mag_permeability : R := 14 / 100000000.

(** [(n + _Complex_I*k)^2 * mp->permittivity] *)
Definition cpx_permittivity (G : Env) (n k : R) : complex :=
  let cpx_refractive_index := (RtoC n + Complex_I * RtoC k)%C in
  let cpx_rel_permittivity := SQUARE cpx_refractive_index in
  (cpx_rel_permittivity * RtoC (mp_permittivity G))%C.

(* ================================================================== *)
(** ** [assemble_emwave] *)

(** What the second switch on [em_var] leaves in the locals. *)
Record Coefficients : Type := {
  emf_coeff : R;
  conj_coeff : R;
  emf_coeff_dn : R;
  emf_coeff_dk : R;
  conj_coeff_dn : R;
  conj_coeff_dk : R;
  cross_field_var : Z;
  cross_field : nat -> R
}.

(** Indeterminate initial contents of the local arrays of
    [assemble_emwave]. *)
Record Emwave_Uninit : Type := {
  grad_phi_i_0 : nat -> R;
  cross_field_0 : nat -> R
}.

Section Assemble_emwave.

Variable K : Consts.
Variable G : Env.

(** The first [switch (em_var)]: the primary field value [EMF], its
    partner [EMF_conj] and the direction [dir]; [None] is the [default]
    arm. *)
Definition em_field_switch (em_var : Z) : option (R * R * nat) :=
  if (em_var =? EM_E1_REAL K)%Z then Some (fv_em_er G 0, fv_em_ei G 0, 0%nat)
  else if (em_var =? EM_E1_IMAG K)%Z then Some (fv_em_ei G 0, fv_em_er G 0, 0%nat)
  else if (em_var =? EM_E2_REAL K)%Z then Some (fv_em_er G 1, fv_em_ei G 1, 1%nat)
  else if (em_var =? EM_E2_IMAG K)%Z then Some (fv_em_ei G 1, fv_em_er G 1, 1%nat)
  else if (em_var =? EM_E3_REAL K)%Z then Some (fv_em_er G 2, fv_em_ei G 2, 2%nat)
  else if (em_var =? EM_E3_IMAG K)%Z then Some (fv_em_ei G 2, fv_em_er G 2, 2%nat)
  else if (em_var =? EM_H1_REAL K)%Z then Some (fv_em_hr G 0, fv_em_hi G 0, 0%nat)
  else if (em_var =? EM_H1_IMAG K)%Z then Some (fv_em_hi G 0, fv_em_hr G 0, 0%nat)
  else if (em_var =? EM_H2_REAL K)%Z then Some (fv_em_hr G 1, fv_em_hi G 1, 1%nat)
  else if (em_var =? EM_H2_IMAG K)%Z then Some (fv_em_hi G 1, fv_em_hr G 1, 1%nat)
  else if (em_var =? EM_H3_REAL K)%Z then Some (fv_em_hr G 2, fv_em_hi G 2, 2%nat)
  else if (em_var =? EM_H3_IMAG K)%Z then Some (fv_em_hi G 2, fv_em_hr G 2, 2%nat)
  else None.

(** [for (p = 0; p < VIM; p++) cross_field[p] = src[p];] *)
Definition load_cross_field (src cf : nat -> R) : nat -> R :=
  for_loop (VIM G) (fun p cf => upd cf p (src p)) cf.

(** The second [switch (em_var)]: coupling coefficients, their quotients
    by [n] and [k], and the cross field; [None] is the [default] arm. *)
Definition em_coeff_switch (em_var : Z) (omega n k : R)
  (cpx_permittivity : complex) (cf0 : nat -> R) : option Coefficients :=
  if (em_var =? EM_E1_REAL K)%Z || (em_var =? EM_E2_REAL K)%Z
     || (em_var =? EM_E3_REAL K)%Z then
    Some {| emf_coeff := omega * cimag cpx_permittivity;
            conj_coeff := omega * creal cpx_permittivity;
            emf_coeff_dn := omega * cimag cpx_permittivity / n;
            emf_coeff_dk := omega * cimag cpx_permittivity / k;
            conj_coeff_dn := omega * creal cpx_permittivity / n;
            conj_coeff_dk := omega * creal cpx_permittivity / k;
            cross_field_var := EM_H1_REAL K;
            cross_field := load_cross_field (fv_em_hr G) cf0 |}
  else if (em_var =? EM_E1_IMAG K)%Z || (em_var =? EM_E2_IMAG K)%Z
     || (em_var =? EM_E3_IMAG K)%Z then
    Some {| emf_coeff := omega * cimag cpx_permittivity;
            conj_coeff := - omega * creal cpx_permittivity;
            emf_coeff_dn := omega * cimag cpx_permittivity / n;
            emf_coeff_dk := omega * cimag cpx_permittivity / k;
            conj_coeff_dn := - omega * creal cpx_permittivity / n;
            conj_coeff_dk := omega * creal cpx_permittivity / k;
            cross_field_var := EM_H1_IMAG K;
            cross_field := load_cross_field (fv_em_hi G) cf0 |}
  else if (em_var =? EM_H1_REAL K)%Z || (em_var =? EM_H2_REAL K)%Z
     || (em_var =? EM_H3_REAL K)%Z then
    Some {| emf_coeff := 0;
            conj_coeff := - omega * mag_permeability;
            emf_coeff_dn := 0; emf_coeff_dk := 0;
            conj_coeff_dn := 0; conj_coeff_dk := 0;
            cross_field_var := EM_E1_REAL K;
            cross_field := load_cross_field (fv_em_er G) cf0 |}
  else if (em_var =? EM_H1_IMAG K)%Z || (em_var =? EM_H2_IMAG K)%Z
     || (em_var =? EM_H3_IMAG K)%Z then
    Some {| emf_coeff := 0;
            conj_coeff := omega * mag_permeability;
            emf_coeff_dn := 0; emf_coeff_dk := 0;
            conj_coeff_dn := 0; conj_coeff_dk := 0;
            cross_field_var := EM_E1_IMAG K;
            cross_field := load_cross_field (fv_em_ei G) cf0 |}
  else None.

(** [pd->e[eqn] & T_ADVECTION] and [pd->e[eqn] & T_DIFFUSION] *)
Definition advection_on (eqn : Z) : bool :=
  truthy (Z.land (pd_e G eqn) (T_ADVECTION K)).
Definition diffusion_on (eqn : Z) : bool :=
  truthy (Z.land (pd_e G eqn) (T_DIFFUSION K)).

(** The xfem guard at the head of both dof loops: [true] when the
    iteration is left by [continue]. *)
Definition xfem_skips (eqn : Z) (i : nat) : bool :=
  match xfem G with
  | None => false
  | Some xfem_dof_state =>
      let '(xfem_active, extended_dof) :=
        xfem_dof_state i (pd_i G eqn) (ei_ielem_shape G) in
      extended_dof && negb xfem_active
  end.

(** [for (p = 0; p < VIM; p++) grad_phi_i[p] = bf[eqn]->grad_phi[i][p];] *)
Definition load_grad_phi_i (eqn : Z) (i : nat) (g : nat -> R) : nat -> R :=
  for_loop (VIM G) (fun p g => upd g p (grad_phi (bf G eqn) i p)) g.

(** The double loop of the curl term, starting from [diffusion = 0.]:
    [diffusion -= permute(p,q,dir) * grad_phi_i[p] * w[q]]. *)
Definition curl_loop (dir : nat) (g w : nat -> R) : R :=
  for_loop (VIM G) (fun p diffusion =>
    for_loop (VIM G) (fun q diffusion =>
      diffusion - IZR (permute p q dir) * g p * w q) diffusion) 0.

(** The residual loop over the dofs of [eqn]; the state is the residual
    vector and the local array [grad_phi_i]. *)
Definition residual_loop (eqn : Z) (c : Coefficients) (EMF EMF_conj : R)
  (dir : nat) (st : (Z -> nat -> R) * (nat -> R)) : (Z -> nat -> R) * (nat -> R) :=
  let wt := fv_wt G in
  let h3 := fv_h3 G in
  let det_J := detJ (bf G eqn) in
  let peqn := upd_ep G eqn in
  for_loop (ei_dof G eqn) (fun i '(Rv, grad_phi_i) =>
    if xfem_skips eqn i then (Rv, grad_phi_i) else
    let phi_i := phi (bf G eqn) i in
    let advection :=
      if advection_on eqn then
        (0 + emf_coeff c * EMF + conj_coeff c * EMF_conj)
        * (phi_i * h3) * (det_J * wt) * pd_etm G eqn (LOG2_ADVECTION K)
      else 0 in
    let '(diffusion, grad_phi_i) :=
      if diffusion_on eqn then
        let grad_phi_i := load_grad_phi_i eqn i grad_phi_i in
        (curl_loop dir grad_phi_i (cross_field c)
         * (det_J * wt) * h3 * pd_etm G eqn (LOG2_DIFFUSION K), grad_phi_i)
      else (0, grad_phi_i) in
    (add_R Rv peqn i (advection + diffusion), grad_phi_i)) st.

(** The Jacobian block of the primary unknown [em_var]. *)
Definition jac_EMF (eqn em_var : Z) (c : Coefficients) (i : nat)
  (J : Z -> Z -> nat -> nat -> R) : Z -> Z -> nat -> nat -> R :=
  let wt := fv_wt G in
  let h3 := fv_h3 G in
  let det_J := detJ (bf G eqn) in
  let peqn := upd_ep G eqn in
  let phi_i := phi (bf G eqn) i in
  let var := em_var in
  if truthy (pd_v G var) then
    let pvar := upd_vp G var in
    for_loop (ei_dof G var) (fun j J =>
      let phi_j := phi (bf G var) j in
      let advection :=
        if advection_on eqn then
          (0 + phi_i * emf_coeff c * phi_j * det_J * wt)
          * h3 * pd_etm G eqn (LOG2_ADVECTION K)
        else 0 in
      add_J J peqn pvar i j advection) J
  else J.

(** The Jacobian block of the conjugate unknown [em_conjvar]. *)
Definition jac_EMF_conj (eqn em_conjvar : Z) (c : Coefficients) (i : nat)
  (J : Z -> Z -> nat -> nat -> R) : Z -> Z -> nat -> nat -> R :=
  let wt := fv_wt G in
  let h3 := fv_h3 G in
  let det_J := detJ (bf G eqn) in
  let peqn := upd_ep G eqn in
  let phi_i := phi (bf G eqn) i in
  let var := em_conjvar in
  if truthy (pd_v G var) then
    let pvar := upd_vp G var in
    for_loop (ei_dof G var) (fun j J =>
      let phi_j := phi (bf G var) j in
      let advection :=
        if advection_on eqn then
          (0 + phi_i * conj_coeff c * phi_j * det_J * wt)
          * h3 * pd_etm G eqn (LOG2_ADVECTION K)
        else 0 in
      add_J J peqn pvar i j advection) J
  else J.

(** The double loop of the cross-field Jacobian, from [diffusion = 0.]:
    [diffusion -= permute(p,q,dir) * grad_phi_i[p] * delta(q,b) * phi_j]. *)
Definition curl_delta_loop (dir b : nat) (g : nat -> R) (phi_j : R) : R :=
  for_loop (VIM G) (fun p diffusion =>
    for_loop (VIM G) (fun q diffusion =>
      diffusion - IZR (permute p q dir) * g p * IZR (delta q b) * phi_j)
      diffusion) 0.

(** The Jacobian block of the components of the cross field. *)
Definition jac_cross_field (eqn : Z) (c : Coefficients) (dir i : nat)
  (st : (Z -> Z -> nat -> nat -> R) * (nat -> R))
  : (Z -> Z -> nat -> nat -> R) * (nat -> R) :=
  let wt := fv_wt G in
  let h3 := fv_h3 G in
  let det_J := detJ (bf G eqn) in
  let peqn := upd_ep G eqn in
  for_loop (Num_Dim G) (fun b st =>
    let var := (cross_field_var c + Z.of_nat b)%Z in
    if truthy (pd_v G var) then
      let pvar := upd_vp G var in
      for_loop (ei_dof G var) (fun j '(J, grad_phi_i) =>
        let phi_j := phi (bf G var) j in
        if diffusion_on eqn then
          let grad_phi_i := load_grad_phi_i eqn i grad_phi_i in
          let diffusion :=
            curl_delta_loop dir b grad_phi_i phi_j
            * (det_J * wt) * h3 * pd_etm G eqn (LOG2_DIFFUSION K) in
          (add_J J peqn pvar i j diffusion, grad_phi_i)
        else (J, grad_phi_i)) st
    else st) st.

(** The temperature block [J_e_T]. *)
Definition jac_T (eqn : Z) (c : Coefficients) (EMF EMF_conj : R)
  (d_n d_k : CONDUCTIVITY_DEPENDENCE_STRUCT) (i : nat)
  (J : Z -> Z -> nat -> nat -> R) : Z -> Z -> nat -> nat -> R :=
  let wt := fv_wt G in
  let h3 := fv_h3 G in
  let det_J := detJ (bf G eqn) in
  let peqn := upd_ep G eqn in
  let phi_i := phi (bf G eqn) i in
  let var := TEMPERATURE K in
  if truthy (pd_v G var) then
    let pvar := upd_vp G var in
    for_loop (ei_dof G var) (fun j J =>
      let advection :=
        if advection_on eqn then
          (0 + phi_i
               * (EMF * (emf_coeff_dn c * cd_T d_n j
                         + emf_coeff_dk c * cd_T d_k j)
                  + EMF_conj * (conj_coeff_dn c * cd_T d_n j
                                + conj_coeff_dk c * cd_T d_k j))
               * det_J * wt)
          * h3 * pd_etm G eqn (LOG2_ADVECTION K)
        else 0 in
      add_J J peqn pvar i j advection) J
  else J.

(** The four parts of the mesh-displacement diffusion entry; [g] is the
    local array [grad_phi_i]. *)
Definition diff_a (eqn : Z) (i b j : nat) : R :=
  for_loop (Num_Dim G) (fun p diff_a =>
    diff_a + d_grad_phi_dmesh (bf G eqn) i p b j) 0
  * (detJ (bf G eqn) * fv_h3 G * fv_wt G).
Definition diff_b (eqn : Z) (g : nat -> R) : R :=
  for_loop (VIM G) (fun p diff_b => diff_b + g p) 0
  * (detJ (bf G eqn) * fv_h3 G * fv_wt G).
Definition diff_c (eqn : Z) (g : nat -> R) (d_det_J_dmeshbj : R) : R :=
  for_loop (Num_Dim G) (fun p diff_c => diff_c + g p) 0
  * (d_det_J_dmeshbj * fv_h3 G * fv_wt G).
Definition diff_d (eqn : Z) (g : nat -> R) (dh3dmesh_bj : R) : R :=
  for_loop (Num_Dim G) (fun p diff_d => diff_d + g p) 0
  * (detJ (bf G eqn) * dh3dmesh_bj * fv_wt G).

(** The mesh-displacement block [J_e_d]; reads [grad_phi_i]. *)
Definition jac_mesh (eqn : Z) (c : Coefficients) (EMF EMF_conj : R)
  (d_n d_k : CONDUCTIVITY_DEPENDENCE_STRUCT) (i : nat)
  (grad_phi_i : nat -> R)
  (J : Z -> Z -> nat -> nat -> R) : Z -> Z -> nat -> nat -> R :=
  let wt := fv_wt G in
  let h3 := fv_h3 G in
  let det_J := detJ (bf G eqn) in
  let peqn := upd_ep G eqn in
  let phi_i := phi (bf G eqn) i in
  for_loop (Num_Dim G) (fun b J =>
    let var := (MESH_DISPLACEMENT1 K + Z.of_nat b)%Z in
    if truthy (pd_v G var) then
      let pvar := upd_vp G var in
      for_loop (ei_dof G var) (fun j J =>
        let dh3dmesh_bj := fv_dh3dq G b * phi (bf G var) j in
        let d_det_J_dmeshbj := d_det_J_dm (bf G eqn) b j in
        let advection :=
          if advection_on eqn then
            (0 + phi_i
                 * (EMF * (emf_coeff_dn c * cd_X d_n b j
                           + emf_coeff_dk c * cd_X d_k b j)
                    + EMF_conj * (conj_coeff_dn c * cd_X d_n b j
                                  + conj_coeff_dk c * cd_X d_k b j))
                 * det_J * h3 * wt
               + phi_i * (emf_coeff c * EMF + conj_coeff c * EMF_conj)
                 * (d_det_J_dmeshbj * h3 + det_J * dh3dmesh_bj) * wt)
            * pd_etm G eqn (LOG2_ADVECTION K)
          else 0 in
        let diffusion :=
          if diffusion_on eqn then
            (diff_a eqn i b j + diff_b eqn grad_phi_i
             + diff_c eqn grad_phi_i d_det_J_dmeshbj
             + diff_d eqn grad_phi_i dh3dmesh_bj)
            * pd_etm G eqn (LOG2_DIFFUSION K)
          else 0 in
        add_J J peqn pvar i j (advection + diffusion)) J
    else J) J.

(** The species block [J_e_c], stored at [MAX_PROB_VAR + w]. *)
Definition jac_species (eqn : Z) (c : Coefficients) (EMF EMF_conj : R)
  (d_n d_k : CONDUCTIVITY_DEPENDENCE_STRUCT) (i : nat)
  (J : Z -> Z -> nat -> nat -> R) : Z -> Z -> nat -> nat -> R :=
  let wt := fv_wt G in
  let h3 := fv_h3 G in
  let det_J := detJ (bf G eqn) in
  let peqn := upd_ep G eqn in
  let phi_i := phi (bf G eqn) i in
  let var := MASS_FRACTION K in
  if truthy (pd_e G eqn) && truthy (pd_v G var) then
    for_loop (Num_Species_Eqn G) (fun w J =>
      for_loop (ei_dof G var) (fun j J =>
        let advection :=
          if advection_on eqn then
            (0 + phi_i
                 * (EMF * (emf_coeff_dn c * cd_C d_n w j
                           + emf_coeff_dk c * cd_C d_k w j)
                    + EMF_conj * (conj_coeff_dn c * cd_C d_n w j
                                  + conj_coeff_dk c * cd_C d_k w j))
                 * det_J * wt)
            * h3 * pd_etm G eqn (LOG2_ADVECTION K)
          else 0 in
        add_J J peqn (MAX_PROB_VAR K + Z.of_nat w)%Z i j advection) J) J
  else J.

(** The Jacobian loop over the dofs of [eqn]; the state is the Jacobian
    block and the local array [grad_phi_i]. *)
Definition jacobian_loop (eqn em_var em_conjvar : Z) (c : Coefficients)
  (EMF EMF_conj : R) (dir : nat)
  (d_n d_k : CONDUCTIVITY_DEPENDENCE_STRUCT)
  (st : (Z -> Z -> nat -> nat -> R) * (nat -> R))
  : (Z -> Z -> nat -> nat -> R) * (nat -> R) :=
  for_loop (ei_dof G eqn) (fun i '(J, grad_phi_i) =>
    if xfem_skips eqn i then (J, grad_phi_i) else
    let grad_phi_i := load_grad_phi_i eqn i grad_phi_i in
    let J := jac_EMF eqn em_var c i J in
    let J := jac_EMF_conj eqn em_conjvar c i J in
    let '(J, grad_phi_i) := jac_cross_field eqn c dir i (J, grad_phi_i) in
    let J := jac_T eqn c EMF EMF_conj d_n d_k i J in
    let J := jac_mesh eqn c EMF EMF_conj d_n d_k i grad_phi_i J in
    let J := jac_species eqn c EMF EMF_conj d_n d_k i J in
    (J, grad_phi_i)) st.

(** [assemble_emwave]: the status and the accumulator on return.  The
    [default] arms report the error through [EH(-1, ...)] and hand back
    [-1]. *)
Definition assemble_emwave (time tt dt : R) (em_eqn em_var em_conjvar : Z)
  (U : Emwave_Uninit) (lec : Local_Element_Contributions)
  : Z * Local_Element_Contributions :=
  let grad_phi_i := for_loop DIM (fun i g => upd g i 0) (grad_phi_i_0 U) in
  let status := 0%Z in
  let eqn := em_eqn in
  if negb (truthy (pd_e G eqn)) then (status, lec) else
  let omega := Acoustic_Frequency G in
  let '(n, d_n) := refractive_index G time in
  let '(k, d_k) := extinction_index G time in
  let cpx_permittivity := cpx_permittivity G n k in
  match em_field_switch em_var with
  | None => ((-1)%Z, lec)
  | Some (EMF, EMF_conj, dir) =>
    match em_coeff_switch em_var omega n k cpx_permittivity
            (cross_field_0 U) with
    | None => ((-1)%Z, lec)
    | Some c =>
      let '(Rv, grad_phi_i) :=
        if truthy (af_Assemble_Residual G) then
          residual_loop eqn c EMF EMF_conj dir (lec_R lec, grad_phi_i)
        else (lec_R lec, grad_phi_i) in
      let '(J, grad_phi_i) :=
        if truthy (af_Assemble_Jacobian G) then
          jacobian_loop eqn em_var em_conjvar c EMF EMF_conj dir d_n d_k
            (lec_J lec, grad_phi_i)
        else (lec_J lec, grad_phi_i) in
      (status, {| lec_R := Rv; lec_J := J |})
    end
  end.

End Assemble_emwave.

(* ================================================================== *)
(** ** [apply_em_farfield_direct] *)

(** Indeterminate initial contents of the locals of
    [apply_em_farfield_direct]. *)
Record Farfield_Uninit : Type := {
  n2_0 : R;
  var_0 : Z;
  real_0 : R;
  imag_0 : R;
  normal_0 : nat -> complex;
  E1_0 : nat -> complex;
  incident_0 : nat -> complex;
  cpx_func_0 : nat -> complex
}.

(** The objects the call has written on return: the two output arrays and
    the variable [ns], which receives [bc_data[0]]. *)
Record Farfield_Result : Type := {
  ff_status : Z;
  ff_func : nat -> R;
  ff_d_func : nat -> Z -> nat -> R;
  ff_ns : R
}.

(** [d_func[p][gvar][j] = x] *)
Definition set_d_func (d_func : nat -> Z -> nat -> R) (p : nat) (gvar : Z)
  (j : nat) (x : R) : nat -> Z -> nat -> R :=
  upd d_func p (updZ (d_func p) gvar (upd (d_func p gvar) j x)).

Section Apply_em_farfield_direct.

Variable K : Consts.
Variable G : Env.
Variable U : Farfield_Uninit.

(** [impedance1]: the interior medium, from the material models. *)
Definition impedance1 : complex :=
  let '(n1, d_n1) := refractive_index G 0 in
  let '(k1, d_k1) := extinction_index G 0 in
  let cpx_permittivity1 := cpx_permittivity G n1 k1 in
  csqrt (RtoC mag_permeability / cpx_permittivity1)%C.

(** [cpx_permittivity2] and [impedance2]: the exterior medium.  The source
    stores [bc_data[0]] in [ns]; [n2] is read as it was declared. *)
Definition cpx_permittivity2 (bc_data : nat -> R) : complex :=
  let n2 := n2_0 U in
  let k2 := bc_data 1%nat in
  cpx_permittivity G n2 k2.

Definition impedance2 (bc_data : nat -> R) : complex :=
  csqrt (RtoC mag_permeability / cpx_permittivity2 bc_data)%C.

(** [normal[i] = fv->snormal[i]] for [i < DIM] *)
Definition normal : nat -> complex :=
  for_loop DIM (fun i a => upd a i (RtoC (fv_snormal G i))) (normal_0 U).

(** [E1[i] = fv->em_er[i] + _Complex_I*fv->em_ei[i]] for [i < DIM] *)
Definition E1 : nat -> complex :=
  for_loop DIM (fun i a =>
    upd a i (RtoC (fv_em_er G i) + Complex_I * RtoC (fv_em_ei G i))%C)
    (E1_0 U).

(** [Gamma] and [tau] as the source computes them from the two
    impedances. *)
Definition Gamma (impedance1 impedance2 : complex) : complex :=
  ((impedance2 - impedance1) / (impedance2 + impedance1))%C.

Definition tau (impedance1 impedance2 : complex) : complex :=
  ((RtoC 2 * impedance2) / (impedance2 + impedance1))%C.

Definition incident (bc_data : nat -> R) : nat -> complex :=
  let a := incident_0 U in
  let a := upd a 0 (RtoC (bc_data 2%nat) + Complex_I * RtoC (bc_data 5%nat))%C in
  let a := upd a 1 (RtoC (bc_data 3%nat) + Complex_I * RtoC (bc_data 6%nat))%C in
  let a := upd a 2 (RtoC (bc_data 4%nat) + Complex_I * RtoC (bc_data 7%nat))%C in
  a.

Definition is_E_kind (bc_name : Z) : bool :=
  (bc_name =? EM_ER_FARFIELD_DIRECT_BC K)%Z
  || (bc_name =? EM_EI_FARFIELD_DIRECT_BC K)%Z.

Definition is_H_kind (bc_name : Z) : bool :=
  (bc_name =? EM_HR_FARFIELD_DIRECT_BC K)%Z
  || (bc_name =? EM_HI_FARFIELD_DIRECT_BC K)%Z.

(** The first [switch (bc_name)]: the complex residual vector. *)
Definition cpx_func (bc_name : Z) (bc_data : nat -> R) : nat -> complex :=
  let Gamma := Gamma impedance1 (impedance2 bc_data) in
  let tau := tau impedance1 (impedance2 bc_data) in
  let incident := incident bc_data in
  if is_E_kind bc_name then
    for_loop DIM (fun p cpx_func =>
      for_loop DIM (fun q cpx_func =>
        for_loop DIM (fun r cpx_func =>
          upd cpx_func p
            (ZtoC (permute p q r)
             * (tau / (RtoC 1 + Gamma) * normal q * E1 r
                + normal q * incident r))%C)
          cpx_func) cpx_func) (cpx_func_0 U)
  else if is_H_kind bc_name then
    for_loop DIM (fun p cpx_func =>
      upd cpx_func p
        (- E1 p / impedance2 bc_data * tau / (RtoC 1 + Gamma)
         - incident p / impedance2 bc_data)%C) (cpx_func_0 U)
  else cpx_func_0 U.

(** The second [switch (bc_name)]: the scalar residual and the locals
    [var], [real], [imag]. *)
Definition emit (bc_name : Z) (cpx_func : nat -> complex) (func : nat -> R)
  : (nat -> R) * Z * R * R :=
  if (bc_name =? EM_ER_FARFIELD_DIRECT_BC K)%Z then
    (for_loop DIM (fun p func => upd func p (creal (cpx_func p))) func,
     EM_E1_REAL K, 1, 0)
  else if (bc_name =? EM_EI_FARFIELD_DIRECT_BC K)%Z then
    (for_loop DIM (fun p func => upd func p (cimag (cpx_func p))) func,
     EM_E1_IMAG K, 0, 1)
  else if (bc_name =? EM_HR_FARFIELD_DIRECT_BC K)%Z then
    (for_loop DIM (fun p func => upd func p (creal (cpx_func p))) func,
     EM_H1_REAL K, 1, 0)
  else if (bc_name =? EM_HI_FARFIELD_DIRECT_BC K)%Z then
    (for_loop DIM (fun p func => upd func p (cimag (cpx_func p))) func,
     EM_H1_IMAG K, 0, 1)
  else (func, var_0 U, real_0 U, imag_0 U).

(** The third [switch (bc_name)], under [af->Assemble_Jacobian]. *)
Definition farfield_jacobian (bc_name : Z) (bc_data : nat -> R)
  (var : Z) (real imag : R) (d_func : nat -> Z -> nat -> R)
  : nat -> Z -> nat -> R :=
  let Gamma := Gamma impedance1 (impedance2 bc_data) in
  let tau := tau impedance1 (impedance2 bc_data) in
  if is_E_kind bc_name then
    for_loop (Num_Dim G) (fun g d_func =>
      let gvar := (var + Z.of_nat g)%Z in
      for_loop (Num_Dim G) (fun p d_func =>
        for_loop (Num_Dim G) (fun q d_func =>
          for_loop (Num_Dim G) (fun r d_func =>
            for_loop (Num_Dim G) (fun j d_func =>
              let z := (ZtoC (permute p q r) * tau / (RtoC 1 + Gamma)
                        * normal q * ZtoC (delta q g)
                        * RtoC (phi (bf G gvar) j))%C in
              set_d_func d_func p gvar j
                (real * creal z + imag * cimag z))
              d_func) d_func) d_func) d_func) d_func
  else if is_H_kind bc_name then
    for_loop (Num_Dim G) (fun g d_func =>
      let gvar := (var + Z.of_nat g)%Z in
      if truthy (pd_v G gvar) then
        for_loop DIM (fun p d_func =>
          for_loop (ei_dof G var) (fun j d_func =>
            let z := (RtoC (phi (bf G gvar) j) / impedance2 bc_data
                      / (RtoC 1 + Gamma) * tau)%C in
            set_d_func d_func p gvar j
              (- real * creal z - imag * cimag z))
            d_func) d_func
      else d_func) d_func
  else d_func.

(** [apply_em_farfield_direct]; [xi] is not read. *)
Definition apply_em_farfield_direct (func : nat -> R)
  (d_func : nat -> Z -> nat -> R) (xi : nat -> R) (bc_name : Z)
  (bc_data : nat -> R) : Farfield_Result :=
  let ns := bc_data 0%nat in
  let cpx_func := cpx_func bc_name bc_data in
  let '(func, var, real, imag) := emit bc_name cpx_func func in
  let d_func :=
    if truthy (af_Assemble_Jacobian G) then
      farfield_jacobian bc_name bc_data var real imag d_func
    else d_func in
  {| ff_status := 0; ff_func := func; ff_d_func := d_func; ff_ns := ns |}.

End Apply_em_farfield_direct.

(* ================================================================== *)
(** ** The formulas of the specification *)

(** The residual contribution of test function [i] as the specification
    words it: an advection term and a curl term, each scaled by
    [det_J * h3 * wt] and by the multiplier of its term type, and absent
    when the term type is off. *)
Definition residual_formula (K : Consts) (G : Env) (eqn : Z)
  (c : Coefficients) (EMF EMF_conj : R) (dir i : nat) : R :=
  let scale := detJ (bf G eqn) * fv_h3 G * fv_wt G in
  (if advection_on K G eqn then
     (emf_coeff c * EMF + conj_coeff c * EMF_conj) * phi (bf G eqn) i
     * scale * pd_etm G eqn (LOG2_ADVECTION K)
   else 0)
  + (if diffusion_on K G eqn then
       - Rsum (VIM G) (fun p => Rsum (VIM G) (fun q =>
           IZR (permute p q dir) * grad_phi (bf G eqn) i p
           * cross_field c q))
       * scale * pd_etm G eqn (LOG2_DIFFUSION K)
     else 0).

(* ================================================================== *)
(** ** Concrete configurations *)

(** One consistent numbering of the symbolic constants: the three
    components of each field family are consecutive, as the source's
    [cross_field_var + b] and [var + g] need. *)
Definition demo_consts : Consts := {|
  EM_E1_REAL := 1; EM_E2_REAL := 2; EM_E3_REAL := 3;
  EM_E1_IMAG := 4; EM_E2_IMAG := 5; EM_E3_IMAG := 6;
  EM_H1_REAL := 7; EM_H2_REAL := 8; EM_H3_REAL := 9;
  EM_H1_IMAG := 10; EM_H2_IMAG := 11; EM_H3_IMAG := 12;
  TEMPERATURE := 20;
  MESH_DISPLACEMENT1 := 30;
  MASS_FRACTION := 40;
  MAX_PROB_VAR := 50;
  T_ADVECTION := 2;
  T_DIFFUSION := 8;
  LOG2_ADVECTION := 1;
  LOG2_DIFFUSION := 3;
  EM_ER_FARFIELD_DIRECT_BC := 101;
  EM_EI_FARFIELD_DIRECT_BC := 102;
  EM_HR_FARFIELD_DIRECT_BC := 103;
  EM_HI_FARFIELD_DIRECT_BC := 104
|}.

Definition no_dependence : CONDUCTIVITY_DEPENDENCE_STRUCT :=
  {| cd_T := fun _ => 0; cd_X := fun _ _ => 0; cd_C := fun _ _ => 0 |}.

(** Basis data with unit shape functions and the given geometry. *)
Definition demo_bf (det_J : R) (gphi : nat -> nat -> R) : BASIS_FUNCTIONS :=
  {| detJ := det_J;
     phi := fun _ => 1;
     grad_phi := gphi;
     d_det_J_dm := fun _ _ => 0;
     d_grad_phi_dmesh := fun _ _ _ _ => 0 |}.

(** A one-dof, three-dimensional element with unit frequency, base
    permittivity and term multipliers.  The parameters are the term mask of
    every equation, the two assembly flags, the xfem state, the activity
    of the variables, the optical constants, the four field vectors, the
    surface normal and the geometry. *)
Definition demo_env (e res jac : Z)
  (x : option (nat -> Z -> Z -> bool * bool)) (v : Z -> Z) (n k : R)
  (er ei hr hi nrm : nat -> R) (det_J h3 wt : R) (gphi : nat -> nat -> R)
  : Env := {|
  Num_Dim := 3;
  Num_Species_Eqn := 0;
  pd_e := fun _ => e;
  pd_v := v;
  pd_i := fun _ => 0%Z;
  pd_etm := fun _ _ => 1;
  Acoustic_Frequency := 1;
  upd_ep := fun z => z;
  upd_vp := fun z => z;
  fv_wt := wt;
  fv_h3 := h3;
  fv_dh3dq := fun _ => 0;
  fv_snormal := nrm;
  fv_em_er := er;
  fv_em_ei := ei;
  fv_em_hr := hr;
  fv_em_hi := hi;
  bf := fun _ => demo_bf det_J gphi;
  ei_dof := fun _ => 1%nat;
  ei_ielem_shape := 0;
  af_Assemble_Residual := res;
  af_Assemble_Jacobian := jac;
  mp_permittivity := 1;
  VIM := 3;
  xfem := x;
  refractive_index := fun _ => (n, no_dependence);
  extinction_index := fun _ => (k, no_dependence)
|}.

Definition zero_vec : nat -> R := fun _ => 0.
Definition ones_vec : nat -> R := fun _ => 1.
Definition unit_x : nat -> R := fun p => match p with O => 1 | _ => 0 end.
Definition unit_y : nat -> R := fun p => match p with 1%nat => 1 | _ => 0 end.

Definition zero_lec : Local_Element_Contributions :=
  {| lec_R := fun _ _ => 0; lec_J := fun _ _ _ _ => 0 |}.

Definition demo_emwave_uninit : Emwave_Uninit :=
  {| grad_phi_i_0 := zero_vec; cross_field_0 := zero_vec |}.

(** Residual assembly of the advection term only, in a medium with
    [n = k = 1], without xfem and with every xfem dof switched off. *)
Definition advection_env : Env :=
  demo_env 2 1 0 None (fun _ => 0%Z) 1 1
    ones_vec ones_vec ones_vec ones_vec unit_x 1 1 1 (fun _ _ => 1).

Definition xfem_env : Env :=
  demo_env 2 1 0 (Some (fun _ _ _ => (false, true))) (fun _ => 0%Z) 1 1
    ones_vec ones_vec ones_vec ones_vec unit_x 1 1 1 (fun _ _ => 1).

(** A boundary point with normal [x], a vanishing interior field and an
    interior medium with [n1 = 1], [k1 = 0]. *)
Definition farfield_env : Env :=
  demo_env 0 0 0 None (fun _ => 0%Z) 1 0
    zero_vec zero_vec zero_vec zero_vec unit_x 1 1 1 (fun _ _ => 0).

Definition zero_cvec : nat -> complex := fun _ => RtoC 0.

(** Locals of the boundary routine on entry; [n2] happens to hold 1. *)
Definition demo_farfield_uninit : Farfield_Uninit :=
  {| n2_0 := 1; var_0 := 0; real_0 := 0; imag_0 := 0;
     normal_0 := zero_cvec; E1_0 := zero_cvec;
     incident_0 := zero_cvec; cpx_func_0 := zero_cvec |}.

Definition zero_d_func : nat -> Z -> nat -> R := fun _ _ _ => 0.

(** Boundary data: exterior [n = 1], [k = 0], incident field [(0, 1, 0)]. *)
Definition bc_data_incident_y : nat -> R :=
  fun i => match i with 0%nat => 1 | 3%nat => 1 | _ => 0 end.

(** Boundary data: exterior [n = 2], [k = 0], no incident field. *)
Definition bc_data_n2 : nat -> R :=
  fun i => match i with 0%nat => 2 | _ => 0 end.

(** Jacobian and residual assembly of the curl term only, with the first
    mesh displacement as the one active unknown and all fields zero; the
    optical constants and the geometry are left open. *)
Definition mesh_env (n k det_J h3 wt : R) (gphi : nat -> nat -> R) : Env :=
  demo_env 8 1 1 None (fun v => if (v =? 30)%Z then 1%Z else 0%Z) n k
    zero_vec zero_vec zero_vec zero_vec unit_x det_J h3 wt gphi.

(** Any configuration in a medium with [n = 2], [k = 1]. *)
Definition lossy_env : Env :=
  demo_env 2 1 1 None (fun _ => 0%Z) 2 1
    ones_vec ones_vec ones_vec ones_vec unit_x 1 1 1 (fun _ _ => 1).

(* ================================================================== *)
(** ** Vocabulary for the further properties *)

(** The bilinear dot product of two complex 3-vectors. *)
Definition Cdot (a b : nat -> complex) : complex :=
  Csum DIM (fun k => a k * b k)%C.

(** A real array read as a complex one. *)
Definition to_complex (v : nat -> R) : nat -> complex :=
  fun p => RtoC (v p).

(** The case labels of the four arms of the second switch of
    [assemble_emwave]. *)
Definition E_real_selector (K : Consts) (em_var : Z) : bool :=
  (em_var =? EM_E1_REAL K)%Z || (em_var =? EM_E2_REAL K)%Z
  || (em_var =? EM_E3_REAL K)%Z.
Definition E_imag_selector (K : Consts) (em_var : Z) : bool :=
  (em_var =? EM_E1_IMAG K)%Z || (em_var =? EM_E2_IMAG K)%Z
  || (em_var =? EM_E3_IMAG K)%Z.
Definition H_real_selector (K : Consts) (em_var : Z) : bool :=
  (em_var =? EM_H1_REAL K)%Z || (em_var =? EM_H2_REAL K)%Z
  || (em_var =? EM_H3_REAL K)%Z.
Definition H_imag_selector (K : Consts) (em_var : Z) : bool :=
  (em_var =? EM_H1_IMAG K)%Z || (em_var =? EM_H2_IMAG K)%Z
  || (em_var =? EM_H3_IMAG K)%Z.

(** Membership of a selector in the twelve recognised identifiers. *)
Definition recognised (K : Consts) (em_var : Z) : bool :=
  existsb (Z.eqb em_var) (EM_field_vars K).

(** Three sample complex vectors. *)
Definition cvec_a : nat -> complex :=
  fun p => match p with O => mkC 1 2 | 1%nat => mkC 0 1 | _ => mkC 3 0 end.
Definition cvec_b : nat -> complex :=
  fun p => match p with O => mkC 2 0 | 1%nat => mkC 1 1 | _ => mkC 0 5 end.

(** The part of a complex residual the second switch of
    [apply_em_farfield_direct] emits for a recognised kind, the case
    labels taken in their order: the real part for the two real kinds,
    the imaginary part for the two imaginary ones. *)
Definition emitted_part (K : Consts) (bc_name : Z) (z : complex) : R :=
  if (bc_name =? EM_ER_FARFIELD_DIRECT_BC K)%Z then creal z
  else if (bc_name =? EM_EI_FARFIELD_DIRECT_BC K)%Z then cimag z
  else if (bc_name =? EM_HR_FARFIELD_DIRECT_BC K)%Z then creal z
  else cimag z.

(** Boundary data with an incident field [(1 + 2i, 0, 0)] and exterior
    [k2 = 0]. *)
Definition bc_data_incident_x : nat -> R :=
  fun i => match i with 0%nat => 1 | 2%nat => 1 | 5%nat => 2 | _ => 0 end.

(** A boundary point as [farfield_env] with the interior field
    [E = (3 + 4i, 0, 0)]. *)
Definition farfield_field_env : Env :=
  demo_env 0 0 0 None (fun _ => 0%Z) 1 0
    (fun p => match p with O => 3 | _ => 0 end)
    (fun p => match p with O => 4 | _ => 0 end)
    zero_vec zero_vec unit_x 1 1 1 (fun _ _ => 0).

(** Both term types on, every variable active, a medium with [n = 2],
    [k = 1]. *)
Definition coupled_env : Env :=
  demo_env 10 1 1 None (fun _ => 1%Z) 2 1
    ones_vec ones_vec ones_vec ones_vec unit_x 1 1 1 (fun _ _ => 1).

Definition sample_coefficients : Coefficients :=
  {| emf_coeff := 5; conj_coeff := 7;
     emf_coeff_dn := 0; emf_coeff_dk := 0;
     conj_coeff_dn := 0; conj_coeff_dk := 0;
     cross_field_var := 7; cross_field := ones_vec |}.

(** The first of the three consecutive variables whose slots of [d_func]
    the far-field Jacobian addresses, as the second switch of
    [apply_em_farfield_direct] sets [var], the case labels taken in their
    order; for an unrecognised kind [var] keeps its content on entry. *)
Definition coupled_var (K : Consts) (U : Farfield_Uninit) (bc_name : Z) : Z :=
  if (bc_name =? EM_ER_FARFIELD_DIRECT_BC K)%Z then EM_E1_REAL K
  else if (bc_name =? EM_EI_FARFIELD_DIRECT_BC K)%Z then EM_E1_IMAG K
  else if (bc_name =? EM_HR_FARFIELD_DIRECT_BC K)%Z then EM_H1_REAL K
  else if (bc_name =? EM_HI_FARFIELD_DIRECT_BC K)%Z then EM_H1_IMAG K
  else var_0 U.

(** The sample boundary point with the Jacobian requested and every
    variable active. *)
Definition farfield_jac_env : Env :=
  demo_env 0 0 1 None (fun _ => 1%Z) 1 0
    (fun p => match p with O => 3 | _ => 0 end)
    (fun p => match p with O => 4 | _ => 0 end)
    zero_vec zero_vec unit_x 1 1 1 (fun _ _ => 0).

(* ================================================================== *)
(** ** Quotients with their domain *)

(** The embedding divides in [R], where a quotient by zero is 0.  The
    source divides doubles: a zero divisor gives an infinity or a NaN, and
    every sum or product that has such an operand is again one of them.
    The definitions of this part redo the lines of [assemble_emwave] that
    divide by [n] and by [k], and the Jacobian terms built on them, with
    the domain of the division kept: [None] is a result that is not a
    number. *)
Definition checked_div (x y : R) : option R :=
  if Req_dec_T y 0 then None else Some (x / y).

Definition checked_add (a b : option R) : option R :=
  match a, b with
  | Some x, Some y => Some (x + y)
  | _, _ => None
  end.

Definition checked_mul (a b : option R) : option R :=
  match a, b with
  | Some x, Some y => Some (x * y)
  | _, _ => None
  end.

Definition is_number (a : option R) : bool :=
  match a with Some _ => true | None => false end.

Definition nonzero (x : R) : bool :=
  if Req_dec_T x 0 then false else true.

(** The four quotients the second switch on [em_var] computes. *)
Record Quotients : Type := {
  q_emf_coeff_dn : option R;
  q_emf_coeff_dk : option R;
  q_conj_coeff_dn : option R;
  q_conj_coeff_dk : option R
}.

(** The assignments to [emf_coeff_dn], [emf_coeff_dk], [conj_coeff_dn] and
    [conj_coeff_dk] in the four arms of the second switch; [None] is the
    [default] arm.  No arm tests [n] or [k] before it divides. *)
Definition em_coeff_quotients (K : Consts) (em_var : Z) (omega n k : R)
  (cpx_permittivity : complex) : option Quotients :=
  if E_real_selector K em_var then
    Some {| q_emf_coeff_dn := checked_div (omega * cimag cpx_permittivity) n;
            q_emf_coeff_dk := checked_div (omega * cimag cpx_permittivity) k;
            q_conj_coeff_dn := checked_div (omega * creal cpx_permittivity) n;
            q_conj_coeff_dk := checked_div (omega * creal cpx_permittivity) k
         |}
  else if E_imag_selector K em_var then
    Some {| q_emf_coeff_dn := checked_div (omega * cimag cpx_permittivity) n;
            q_emf_coeff_dk := checked_div (omega * cimag cpx_permittivity) k;
            q_conj_coeff_dn :=
              checked_div (- omega * creal cpx_permittivity) n;
            q_conj_coeff_dk := checked_div (omega * creal cpx_permittivity) k
         |}
  else if H_real_selector K em_var || H_imag_selector K em_var then
    Some {| q_emf_coeff_dn := Some 0; q_emf_coeff_dk := Some 0;
            q_conj_coeff_dn := Some 0; q_conj_coeff_dk := Some 0 |}
  else None.

(** [EMF*(emf_coeff_dn*dn + emf_coeff_dk*dk)
     + EMF_conj*(conj_coeff_dn*dn + conj_coeff_dk*dk)], the factor the
    temperature, mesh and species blocks share; [dn] and [dk] are the
    entries of [d_n] and [d_k] for the unknown at hand. *)
Definition sensitivity_factor (q : Quotients) (EMF EMF_conj dn dk : R)
  : option R :=
  checked_add
    (checked_mul (Some EMF)
       (checked_add (checked_mul (q_emf_coeff_dn q) (Some dn))
                    (checked_mul (q_emf_coeff_dk q) (Some dk))))
    (checked_mul (Some EMF_conj)
       (checked_add (checked_mul (q_conj_coeff_dn q) (Some dn))
                    (checked_mul (q_conj_coeff_dk q) (Some dk)))).

(** The value of [advection] that iteration [j] of the temperature block
    adds to the Jacobian for test function [i]. *)
Definition jac_T_advection_checked (K : Consts) (G : Env) (eqn : Z)
  (q : Quotients) (EMF EMF_conj : R)
  (d_n d_k : CONDUCTIVITY_DEPENDENCE_STRUCT) (i j : nat) : option R :=
  if advection_on K G eqn then
    option_map
      (fun s => (0 + phi (bf G eqn) i * s * detJ (bf G eqn) * fv_wt G)
                * fv_h3 G * pd_etm G eqn (LOG2_ADVECTION K))
      (sensitivity_factor q EMF EMF_conj (cd_T d_n j) (cd_T d_k j))
  else Some 0.

(** The value of [advection] that iteration [(b, j)] of the mesh block
    adds for test function [i]. *)
Definition jac_mesh_advection_checked (K : Consts) (G : Env) (eqn : Z)
  (c : Coefficients) (q : Quotients) (EMF EMF_conj : R)
  (d_n d_k : CONDUCTIVITY_DEPENDENCE_STRUCT) (i b j : nat) : option R :=
  let var := (MESH_DISPLACEMENT1 K + Z.of_nat b)%Z in
  let dh3dmesh_bj := fv_dh3dq G b * phi (bf G var) j in
  let d_det_J_dmeshbj := d_det_J_dm (bf G eqn) b j in
  if advection_on K G eqn then
    option_map
      (fun s => (0 + phi (bf G eqn) i * s * detJ (bf G eqn) * fv_h3 G
                     * fv_wt G
                 + phi (bf G eqn) i
                   * (emf_coeff c * EMF + conj_coeff c * EMF_conj)
                   * (d_det_J_dmeshbj * fv_h3 G
                      + detJ (bf G eqn) * dh3dmesh_bj) * fv_wt G)
                * pd_etm G eqn (LOG2_ADVECTION K))
      (sensitivity_factor q EMF EMF_conj (cd_X d_n b j) (cd_X d_k b j))
  else Some 0.

(** The value of [advection] that iteration [(w, j)] of the species block
    adds for test function [i]. *)
Definition jac_species_advection_checked (K : Consts) (G : Env) (eqn : Z)
  (q : Quotients) (EMF EMF_conj : R)
  (d_n d_k : CONDUCTIVITY_DEPENDENCE_STRUCT) (i w j : nat) : option R :=
  if advection_on K G eqn then
    option_map
      (fun s => (0 + phi (bf G eqn) i * s * detJ (bf G eqn) * fv_wt G)
                * fv_h3 G * pd_etm G eqn (LOG2_ADVECTION K))
      (sensitivity_factor q EMF EMF_conj (cd_C d_n w j) (cd_C d_k w j))
  else Some 0.

(** The lossless medium of the specification's example: [n = 1],
    [k = 0], with both term types on and every variable active. *)
Definition vacuum_env : Env :=
  demo_env 10 1 1 None (fun _ => 1%Z) 1 0
    ones_vec ones_vec ones_vec ones_vec unit_x 1 1 1 (fun _ _ => 1).

(* ================================================================== *)
(** * Properties *)

Lemma Ceq (a b : complex) :
  creal a = creal b -> cimag a = cimag b -> a = b.
Proof. destruct a, b; simpl; intros -> ->; reflexivity. Qed.

Ltac Cring := apply Ceq; simpl; ring.

Lemma for_loop_S {S : Type} (n : nat) (body : nat -> S -> S) (s : S) :
  for_loop (Datatypes.S n) body s = body n (for_loop n body s).
Proof.
  unfold for_loop. rewrite seq_S, fold_left_app. reflexivity.
Qed.

Lemma for_loop_0 {S : Type} (body : nat -> S -> S) (s : S) :
  for_loop 0 body s = s.
Proof. reflexivity. Qed.

(** C8. [complex_cross_vectors] stores in [v2[k]] the double sum of
    [permute(i,j,k) * a[i] * b[j]] over [i] and [j], and the product is
    anticommutative componentwise. *)
Theorem complex_cross_vectors_spec (a b out out' : nat -> complex) (k : nat) :
  (k < DIM)%nat ->
  complex_cross_vectors a b out k
    = Csum DIM (fun i => Csum DIM (fun j => ZtoC (permute i j k) * a i * b j))%C
  /\ complex_cross_vectors a b out k
    = (- complex_cross_vectors b a out' k)%C.
Proof.
  intros Hk. unfold DIM in Hk.
  destruct k as [|[|[|k]]]; try lia;
    (split; [ | ]); unfold complex_cross_vectors, for_loop, memset0, upd, DIM;
    simpl; Cring.
Qed.

(* ------------------------------------------------------------------ *)
(** ** Switches *)

Lemma not_in_cons_neq (x y : Z) (l : list Z) :
  ~ In x (y :: l) -> (x =? y)%Z = false /\ ~ In x l.
Proof.
  intros H; split.
  - apply Z.eqb_neq. intros ->. apply H. left; reflexivity.
  - intros Hin. apply H. right; exact Hin.
Qed.

Ltac split_not_in H :=
  repeat (apply not_in_cons_neq in H;
          let E := fresh "E" in destruct H as [E H]).

Lemma em_field_switch_default (K : Consts) (G : Env) (em_var : Z) :
  ~ In em_var (EM_field_vars K) -> em_field_switch K G em_var = None.
Proof.
  intros H. unfold EM_field_vars in H. split_not_in H.
  unfold em_field_switch.
  repeat match goal with E : (_ =? _)%Z = false |- _ => rewrite E; clear E end.
  reflexivity.
Qed.

Lemma farfield_kind_flags (K : Consts) (bc_name : Z) :
  ~ In bc_name (farfield_kinds K) ->
  (bc_name =? EM_ER_FARFIELD_DIRECT_BC K)%Z = false
  /\ (bc_name =? EM_EI_FARFIELD_DIRECT_BC K)%Z = false
  /\ (bc_name =? EM_HR_FARFIELD_DIRECT_BC K)%Z = false
  /\ (bc_name =? EM_HI_FARFIELD_DIRECT_BC K)%Z = false.
Proof.
  intros H. unfold farfield_kinds in H. split_not_in H. auto.
Qed.

(* ------------------------------------------------------------------ *)
(** ** The volume assembler: early exits *)

(** C6. On an equation that is inactive for the element's material block
    [assemble_emwave] returns status 0 and hands the local accumulator
    back as it received it. *)
Theorem assemble_emwave_inactive (K : Consts) (G : Env) (time tt dt : R)
  (em_eqn em_var em_conjvar : Z) (U : Emwave_Uninit)
  (lec : Local_Element_Contributions) :
  pd_e G em_eqn = 0%Z ->
  assemble_emwave K G time tt dt em_eqn em_var em_conjvar U lec = (0%Z, lec).
Proof.
  intros He. unfold assemble_emwave, truthy. rewrite He. reflexivity.
Qed.

(** C7. On an active equation, a variable selector outside the twelve
    recognised identifiers makes [assemble_emwave] return the negative
    status -1 with the local accumulator untouched. *)
Theorem assemble_emwave_invalid_selector (K : Consts) (G : Env)
  (time tt dt : R) (em_eqn em_var em_conjvar : Z) (U : Emwave_Uninit)
  (lec : Local_Element_Contributions) :
  pd_e G em_eqn <> 0%Z ->
  ~ In em_var (EM_field_vars K) ->
  assemble_emwave K G time tt dt em_eqn em_var em_conjvar U lec
    = ((-1)%Z, lec)
  /\ (fst (assemble_emwave K G time tt dt em_eqn em_var em_conjvar U lec)
      < 0)%Z.
Proof.
  intros He Hv.
  assert (Hr : assemble_emwave K G time tt dt em_eqn em_var em_conjvar U lec
               = ((-1)%Z, lec)).
  { unfold assemble_emwave, truthy.
    apply Z.eqb_neq in He. rewrite He. simpl negb. cbv iota.
    destruct (refractive_index G time) as [n d_n].
    destruct (extinction_index G time) as [k d_k].
    rewrite (em_field_switch_default K G em_var Hv). reflexivity. }
  split; [exact Hr | rewrite Hr; simpl; lia].
Qed.

(* ------------------------------------------------------------------ *)
(** ** The far-field kernel *)

(** C10. For a boundary-condition kind outside the four far-field kinds the
    call still returns 0: neither [func] nor [d_func] is written and the
    complex residual vector keeps its indeterminate initial contents. *)
Theorem apply_em_farfield_direct_unknown_kind (K : Consts) (G : Env)
  (U : Farfield_Uninit) (func : nat -> R) (d_func : nat -> Z -> nat -> R)
  (xi : nat -> R) (bc_name : Z) (bc_data : nat -> R) :
  ~ In bc_name (farfield_kinds K) ->
  let r := apply_em_farfield_direct K G U func d_func xi bc_name bc_data in
  ff_status r = 0%Z
  /\ ff_func r = func
  /\ ff_d_func r = d_func
  /\ cpx_func K G U bc_name bc_data = cpx_func_0 U.
Proof.
  intros H. destruct (farfield_kind_flags K bc_name H) as (E1 & E2 & E3 & E4).
  unfold apply_em_farfield_direct, emit, farfield_jacobian, cpx_func,
    is_E_kind, is_H_kind.
  rewrite E1, E2, E3, E4. simpl.
  repeat split; try reflexivity.
  destruct (truthy (af_Assemble_Jacobian G)); reflexivity.
Qed.

Lemma Cnorm2_nonzero (z : complex) : z <> RtoC 0 -> Cnorm2 z <> 0.
Proof.
  intros Hz Hn. apply Hz. unfold Cnorm2 in Hn.
  destruct z as [x y]; simpl in Hn. unfold RtoC.
  assert (x = 0) by nra. assert (y = 0) by nra. subst. reflexivity.
Qed.

Lemma tau_minus_Gamma (Z1 Z2 : complex) :
  (Z2 + Z1)%C <> RtoC 0 -> (tau Z1 Z2 - Gamma Z1 Z2)%C = RtoC 1.
Proof.
  intros Hs. pose proof (Cnorm2_nonzero _ Hs) as Hn.
  unfold tau, Gamma. destruct Z1 as [x1 y1], Z2 as [x2 y2].
  unfold Cnorm2 in Hn; simpl in Hn.
  apply Ceq; simpl; unfold Cnorm2; simpl; field; exact Hn.
Qed.

(** C5. For impedances with a non-zero sum the boundary coefficients are
    [Gamma = (Z2 - Z1)/(Z2 + Z1)] and [tau = 2*Z2/(Z2 + Z1)], so that
    [tau - Gamma = 1] and [tau = 1 + Gamma]; the impedances the routine
    feeds in are each [csqrt(mag_permeability / permittivity)]. *)
Theorem farfield_coefficients (K : Consts) (G : Env) (U : Farfield_Uninit)
  (bc_data : nat -> R) (Z1 Z2 : complex) :
  (Z2 + Z1)%C <> RtoC 0 ->
  Gamma Z1 Z2 = ((Z2 - Z1) / (Z2 + Z1))%C
  /\ tau Z1 Z2 = ((RtoC 2 * Z2) / (Z2 + Z1))%C
  /\ (tau Z1 Z2 - Gamma Z1 Z2)%C = RtoC 1
  /\ tau Z1 Z2 = (RtoC 1 + Gamma Z1 Z2)%C
  /\ impedance1 G
     = csqrt (RtoC mag_permeability
              / cpx_permittivity G (fst (refractive_index G 0))
                  (fst (extinction_index G 0)))%C
  /\ impedance2 G U bc_data
     = csqrt (RtoC mag_permeability / cpx_permittivity2 G U bc_data)%C.
Proof.
  intros Hs. pose proof (tau_minus_Gamma Z1 Z2 Hs) as Hd.
  repeat split; try reflexivity; try exact Hd.
  - apply Ceq.
    + apply (f_equal creal) in Hd. simpl in *. lra.
    + apply (f_equal cimag) in Hd. simpl in *. lra.
  - unfold impedance1.
    destruct (refractive_index G 0), (extinction_index G 0). reflexivity.
Qed.

(* ------------------------------------------------------------------ *)
(** ** Loops over arrays *)

Lemma for_loop_upd_lookup {A : Type} (n : nat) (f : nat -> A)
  (a : nat -> A) (p : nat) :
  for_loop n (fun p a => upd a p (f p)) a p
    = if (p <? n)%nat then f p else a p.
Proof.
  induction n as [|n IH]; [reflexivity|].
  rewrite for_loop_S. unfold upd at 1.
  destruct (Nat.eqb_spec p n) as [->|Hne].
  - rewrite (proj2 (Nat.ltb_lt n (S n))) by lia. reflexivity.
  - rewrite IH.
    destruct (Nat.ltb_spec p n), (Nat.ltb_spec p (S n)); try lia; reflexivity.
Qed.

Lemma Rsum_ext (n : nat) (f g : nat -> R) :
  (forall p, (p < n)%nat -> f p = g p) -> Rsum n f = Rsum n g.
Proof.
  induction n as [|n IH]; intros H; simpl; [reflexivity|].
  rewrite IH by (intros; apply H; lia). rewrite H by lia. reflexivity.
Qed.

Lemma for_loop_minus (n : nat) (h : nat -> R) (d : R) :
  for_loop n (fun q d => d - h q) d = d - Rsum n h.
Proof.
  induction n as [|n IH]; [simpl; unfold for_loop; simpl; ring|].
  rewrite for_loop_S, IH. simpl. ring.
Qed.

Lemma for_loop_minus2 (n m : nat) (h : nat -> nat -> R) (d : R) :
  for_loop n (fun p d => for_loop m (fun q d => d - h p q) d) d
    = d - Rsum n (fun p => Rsum m (h p)).
Proof.
  induction n as [|n IH]; [unfold for_loop; simpl; ring|].
  rewrite for_loop_S, IH, for_loop_minus. simpl. ring.
Qed.

Lemma curl_loop_sum (G : Env) (dir : nat) (g w : nat -> R) :
  curl_loop G dir g w
    = - Rsum (VIM G) (fun p => Rsum (VIM G) (fun q =>
          IZR (permute p q dir) * g p * w q)).
Proof.
  unfold curl_loop.
  rewrite (for_loop_minus2 (VIM G) (VIM G)
             (fun p q => IZR (permute p q dir) * g p * w q)).
  ring.
Qed.

Lemma curl_loop_loaded (G : Env) (eqn : Z) (dir i : nat) (g w : nat -> R) :
  curl_loop G dir (load_grad_phi_i G eqn i g) w
    = - Rsum (VIM G) (fun p => Rsum (VIM G) (fun q =>
          IZR (permute p q dir) * grad_phi (bf G eqn) i p * w q)).
Proof.
  rewrite curl_loop_sum. f_equal.
  apply Rsum_ext; intros p Hp. apply Rsum_ext; intros q Hq.
  unfold load_grad_phi_i. rewrite for_loop_upd_lookup.
  rewrite (proj2 (Nat.ltb_lt p (VIM G)) Hp). reflexivity.
Qed.

Lemma add_R_lookup (Rv : Z -> nat -> R) (peqn : Z) (i : nat) (x : R)
  (pe : Z) (i' : nat) :
  add_R Rv peqn i x pe i'
    = if (pe =? peqn)%Z && (i' =? i)%nat then Rv pe i' + x else Rv pe i'.
Proof.
  unfold add_R, updZ, upd.
  destruct (Z.eqb_spec pe peqn) as [->|]; simpl; [|reflexivity].
  destruct (Nat.eqb_spec i' i) as [->|]; reflexivity.
Qed.

(* ------------------------------------------------------------------ *)
(** ** The residual loop *)

(** After the residual loop every entry [(peqn, i)] with [i] a dof of the
    equation that the xfem guard lets through has received
    [residual_formula]; every other entry is as before. *)
Lemma residual_loop_entries (K : Consts) (G : Env) (eqn : Z)
  (c : Coefficients) (EMF EMF_conj : R) (dir : nat)
  (Rv : Z -> nat -> R) (g : nat -> R) (pe : Z) (i : nat) :
  fst (residual_loop K G eqn c EMF EMF_conj dir (Rv, g)) pe i
    = if (pe =? upd_ep G eqn)%Z && (i <? ei_dof G eqn)%nat
         && negb (xfem_skips G eqn i)
      then Rv pe i + residual_formula K G eqn c EMF EMF_conj dir i
      else Rv pe i.
Proof.
  unfold residual_loop. generalize (ei_dof G eqn) as m.
  induction m as [|m IH].
  - unfold for_loop; simpl. rewrite andb_false_r. reflexivity.
  - rewrite for_loop_S.
    destruct (for_loop m _ (Rv, g)) as [Rm gm]. simpl fst in IH.
    destruct (xfem_skips G eqn m) eqn:Hskip.
    + simpl fst. rewrite IH.
      destruct (Z.eqb_spec pe (upd_ep G eqn)); simpl; [|reflexivity].
      destruct (Nat.ltb_spec i m), (Nat.ltb_spec i (S m)); try lia;
        simpl; try reflexivity.
      assert (i = m) by lia; subst. rewrite Hskip. reflexivity.
    + assert (Hterm :
        (if advection_on K G eqn
         then (0 + emf_coeff c * EMF + conj_coeff c * EMF_conj)
              * (phi (bf G eqn) m * fv_h3 G)
              * (detJ (bf G eqn) * fv_wt G)
              * pd_etm G eqn (LOG2_ADVECTION K)
         else 0)
        + fst (if diffusion_on K G eqn
               then (curl_loop G dir (load_grad_phi_i G eqn m gm)
                       (cross_field c)
                     * (detJ (bf G eqn) * fv_wt G) * fv_h3 G
                     * pd_etm G eqn (LOG2_DIFFUSION K),
                     load_grad_phi_i G eqn m gm)
               else (0, gm))
        = residual_formula K G eqn c EMF EMF_conj dir m).
      { unfold residual_formula.
        destruct (advection_on K G eqn), (diffusion_on K G eqn); simpl fst;
          try rewrite curl_loop_loaded; ring. }
      destruct (diffusion_on K G eqn); simpl fst in *; simpl snd;
        cbv beta iota; simpl fst;
        rewrite add_R_lookup, Hterm, IH;
        destruct (Z.eqb_spec pe (upd_ep G eqn)); simpl; try reflexivity;
        destruct (Nat.eqb_spec i m) as [Heq|Hne];
        destruct (Nat.ltb_spec i m), (Nat.ltb_spec i (S m)); try lia;
        simpl; try reflexivity;
        subst i; rewrite Hskip; reflexivity.
Qed.

(* ------------------------------------------------------------------ *)
(** ** The residual of [assemble_emwave] *)

(** The residual entries on return, on an active equation with a
    recognised selector. *)
Lemma assemble_emwave_lec_R (K : Consts) (G : Env) (time tt dt : R)
  (em_eqn em_var em_conjvar : Z) (U : Emwave_Uninit)
  (lec : Local_Element_Contributions)
  (EMF EMF_conj : R) (dir : nat) (c : Coefficients) (pe : Z) (i : nat) :
  pd_e G em_eqn <> 0%Z ->
  em_field_switch K G em_var = Some (EMF, EMF_conj, dir) ->
  em_coeff_switch K G em_var (Acoustic_Frequency G)
    (fst (refractive_index G time)) (fst (extinction_index G time))
    (cpx_permittivity G (fst (refractive_index G time))
       (fst (extinction_index G time)))
    (cross_field_0 U) = Some c ->
  let r := assemble_emwave K G time tt dt em_eqn em_var em_conjvar U lec in
  fst r = 0%Z
  /\ lec_R (snd r) pe i
     = if truthy (af_Assemble_Residual G)
          && (pe =? upd_ep G em_eqn)%Z && (i <? ei_dof G em_eqn)%nat
          && negb (xfem_skips G em_eqn i)
       then lec_R lec pe i
            + residual_formula K G em_eqn c EMF EMF_conj dir i
       else lec_R lec pe i.
Proof.
  intros He Hf Hc. cbv zeta.
  assert (Ht : truthy (pd_e G em_eqn) = true).
  { unfold truthy. apply Z.eqb_neq in He. rewrite He. reflexivity. }
  unfold assemble_emwave. rewrite Ht. simpl negb. cbv iota.
  destruct (refractive_index G time) as [n d_n].
  destruct (extinction_index G time) as [k d_k].
  simpl fst in Hc. rewrite Hf, Hc.
  destruct (truthy (af_Assemble_Residual G)).
  - pose proof (residual_loop_entries K G em_eqn c EMF EMF_conj dir
                  (lec_R lec)
                  (for_loop DIM (fun i g => upd g i 0) (grad_phi_i_0 U))
                  pe i) as Hloop.
    destruct (residual_loop K G em_eqn c EMF EMF_conj dir _) as [Rv g1].
    simpl fst in Hloop.
    destruct (if truthy (af_Assemble_Jacobian G) then _ else _) as [J g2].
    simpl. split; [reflexivity | exact Hloop].
  - destruct (if truthy (af_Assemble_Jacobian G) then _ else _) as [J g2].
    simpl. split; reflexivity.
Qed.

(** C4, as the code has it.  With residual assembly requested on an active
    equation and a recognised selector, the entry of every dof [i] of the
    equation grows by the advection term plus the curl term of
    [residual_formula], unless the xfem guard skips that dof, in which case
    nothing is added. *)
Theorem assemble_emwave_residual (K : Consts) (G : Env) (time tt dt : R)
  (em_eqn em_var em_conjvar : Z) (U : Emwave_Uninit)
  (lec : Local_Element_Contributions)
  (EMF EMF_conj : R) (dir : nat) (c : Coefficients) (i : nat) :
  pd_e G em_eqn <> 0%Z ->
  af_Assemble_Residual G <> 0%Z ->
  em_field_switch K G em_var = Some (EMF, EMF_conj, dir) ->
  em_coeff_switch K G em_var (Acoustic_Frequency G)
    (fst (refractive_index G time)) (fst (extinction_index G time))
    (cpx_permittivity G (fst (refractive_index G time))
       (fst (extinction_index G time)))
    (cross_field_0 U) = Some c ->
  (i < ei_dof G em_eqn)%nat ->
  let r := assemble_emwave K G time tt dt em_eqn em_var em_conjvar U lec in
  fst r = 0%Z
  /\ lec_R (snd r) (upd_ep G em_eqn) i
     = lec_R lec (upd_ep G em_eqn) i
       + (if xfem_skips G em_eqn i then 0
          else residual_formula K G em_eqn c EMF EMF_conj dir i).
Proof.
  intros He Hres Hf Hc Hi.
  destruct (assemble_emwave_lec_R K G time tt dt em_eqn em_var em_conjvar
              U lec EMF EMF_conj dir c (upd_ep G em_eqn) i He Hf Hc)
    as [Hs HR].
  split; [exact Hs|]. cbv zeta. rewrite HR.
  unfold truthy. apply Z.eqb_neq in Hres. rewrite Hres.
  rewrite Z.eqb_refl, (proj2 (Nat.ltb_lt _ _) Hi). simpl.
  destruct (xfem_skips G em_eqn i); simpl; ring.
Qed.

Lemma assemble_emwave_residual_witness :
  exists c,
    em_coeff_switch demo_consts advection_env 1 1 1 1
      (cpx_permittivity advection_env 1 1) zero_vec = Some c
    /\ lec_R (snd (assemble_emwave demo_consts advection_env 0 0 0 1 1 4
                     demo_emwave_uninit zero_lec)) 1 0
       = 0 + (if xfem_skips advection_env 1 0 then 0
              else residual_formula demo_consts advection_env 1 c 1 1 0 0).
Proof.
  eexists. split; [reflexivity|].
  refine (proj2 (assemble_emwave_residual demo_consts advection_env 0 0 0
                   1 1 4 demo_emwave_uninit zero_lec 1 1 0 _ 0
                   _ _ eq_refl eq_refl _)).
  - simpl; lia.
  - simpl; lia.
  - simpl; lia.
Defined.

(** C4 as stated fails: with xfem present and dof 0 an inactive extended
    dof, nothing is added although the stated sum is 2. *)
Lemma assemble_emwave_residual_xfem_skip :
  ~ (forall (K : Consts) (G : Env) (time tt dt : R)
       (em_eqn em_var em_conjvar : Z) (U : Emwave_Uninit)
       (lec : Local_Element_Contributions)
       (EMF EMF_conj : R) (dir : nat) (c : Coefficients) (i : nat),
       pd_e G em_eqn <> 0%Z ->
       af_Assemble_Residual G <> 0%Z ->
       em_field_switch K G em_var = Some (EMF, EMF_conj, dir) ->
       em_coeff_switch K G em_var (Acoustic_Frequency G)
         (fst (refractive_index G time)) (fst (extinction_index G time))
         (cpx_permittivity G (fst (refractive_index G time))
            (fst (extinction_index G time)))
         (cross_field_0 U) = Some c ->
       (i < ei_dof G em_eqn)%nat ->
       lec_R (snd (assemble_emwave K G time tt dt em_eqn em_var em_conjvar
                     U lec)) (upd_ep G em_eqn) i
       = lec_R lec (upd_ep G em_eqn) i
         + residual_formula K G em_eqn c EMF EMF_conj dir i).
Proof.
  intros H.
  assert (Hpd : pd_e xfem_env 1 <> 0%Z) by (simpl; lia).
  assert (Hres : af_Assemble_Residual xfem_env <> 0%Z) by (simpl; lia).
  assert (Hi : (0 < ei_dof xfem_env 1)%nat) by (simpl; lia).
  specialize (H demo_consts xfem_env 0 0 0 1%Z 1%Z 4%Z demo_emwave_uninit
                zero_lec _ _ _ _ 0%nat Hpd Hres eq_refl eq_refl Hi).
  destruct (assemble_emwave_lec_R demo_consts xfem_env 0 0 0 1 1 4
              demo_emwave_uninit zero_lec _ _ _ _ (upd_ep xfem_env 1)
              0%nat Hpd eq_refl eq_refl) as [_ HR].
  cbv zeta in HR. rewrite HR in H. clear HR.
  unfold residual_formula, advection_on, diffusion_on, truthy in H.
  simpl in H. unfold ones_vec in H. lra.
Qed.

(* ------------------------------------------------------------------ *)
(** ** The complex residual of the far-field kernel *)

Lemma Cmul_0_l (z : complex) : (ZtoC 0 * z)%C = RtoC 0.
Proof. unfold ZtoC. Cring. Qed.

(** In the E-type arm every assignment to [cpx_func[p]] overwrites the
    previous one, so what is left is the term of [q = r = 2], whose
    permutation symbol vanishes. *)
Lemma cpx_func_E_kind (K : Consts) (G : Env) (U : Farfield_Uninit)
  (bc_name : Z) (bc_data : nat -> R) (p : nat) :
  is_E_kind K bc_name = true ->
  (p < DIM)%nat ->
  cpx_func K G U bc_name bc_data p = RtoC 0.
Proof.
  intros HE Hp. unfold cpx_func. rewrite HE.
  generalize (tau (impedance1 G) (impedance2 G U bc_data)
              / (RtoC 1 + Gamma (impedance1 G) (impedance2 G U bc_data)))%C.
  intros t. generalize (normal G U) (E1 G U) (incident U bc_data).
  intros nv ev iv. unfold DIM in *.
  destruct p as [|[|[|p]]]; try lia;
    unfold for_loop, upd; simpl; apply Cmul_0_l.
Qed.

(** In the H-type arm [cpx_func[p]] is the algebraic combination of the
    interior and the incident field. *)
Lemma cpx_func_H_kind (K : Consts) (G : Env) (U : Farfield_Uninit)
  (bc_name : Z) (bc_data : nat -> R) (p : nat) :
  is_E_kind K bc_name = false ->
  is_H_kind K bc_name = true ->
  (p < DIM)%nat ->
  cpx_func K G U bc_name bc_data p
    = (- E1 G U p / impedance2 G U bc_data
         * tau (impedance1 G) (impedance2 G U bc_data)
         / (RtoC 1 + Gamma (impedance1 G) (impedance2 G U bc_data))
       - incident U bc_data p / impedance2 G U bc_data)%C.
Proof.
  intros HE HH Hp. unfold cpx_func. rewrite HE, HH.
  rewrite (for_loop_upd_lookup DIM
    (fun p => (- E1 G U p / impedance2 G U bc_data
                 * tau (impedance1 G) (impedance2 G U bc_data)
                 / (RtoC 1 + Gamma (impedance1 G) (impedance2 G U bc_data))
               - incident U bc_data p / impedance2 G U bc_data)%C)).
  rewrite (proj2 (Nat.ltb_lt _ _) Hp). reflexivity.
Qed.

(** The emitted scalar is the real part for the real kinds and the
    imaginary part for the imaginary kinds. *)
Lemma emit_real_kinds (K : Consts) (U : Farfield_Uninit) (bc_name : Z)
  (cf : nat -> complex) (func : nat -> R) (p : nat) :
  (p < DIM)%nat ->
  bc_name = EM_ER_FARFIELD_DIRECT_BC K
  \/ ((bc_name =? EM_ER_FARFIELD_DIRECT_BC K)%Z = false
      /\ (bc_name =? EM_EI_FARFIELD_DIRECT_BC K)%Z = false
      /\ bc_name = EM_HR_FARFIELD_DIRECT_BC K) ->
  fst (fst (fst (emit K U bc_name cf func))) p = creal (cf p).
Proof.
  intros Hp [->|(E1 & E2 & ->)]; unfold emit.
  - rewrite Z.eqb_refl. simpl.
    rewrite (for_loop_upd_lookup DIM (fun p => creal (cf p))).
    rewrite (proj2 (Nat.ltb_lt _ _) Hp). reflexivity.
  - rewrite E1, E2, Z.eqb_refl. simpl.
    rewrite (for_loop_upd_lookup DIM (fun p => creal (cf p))).
    rewrite (proj2 (Nat.ltb_lt _ _) Hp). reflexivity.
Qed.

Lemma emit_imag_kinds (K : Consts) (U : Farfield_Uninit) (bc_name : Z)
  (cf : nat -> complex) (func : nat -> R) (p : nat) :
  (p < DIM)%nat ->
  ((bc_name =? EM_ER_FARFIELD_DIRECT_BC K)%Z = false
   /\ bc_name = EM_EI_FARFIELD_DIRECT_BC K)
  \/ ((bc_name =? EM_ER_FARFIELD_DIRECT_BC K)%Z = false
      /\ (bc_name =? EM_EI_FARFIELD_DIRECT_BC K)%Z = false
      /\ (bc_name =? EM_HR_FARFIELD_DIRECT_BC K)%Z = false
      /\ bc_name = EM_HI_FARFIELD_DIRECT_BC K) ->
  fst (fst (fst (emit K U bc_name cf func))) p = cimag (cf p).
Proof.
  intros Hp [(E1 & ->)|(E1 & E2 & E3 & ->)]; unfold emit.
  - rewrite E1, Z.eqb_refl. simpl.
    rewrite (for_loop_upd_lookup DIM (fun p => cimag (cf p))).
    rewrite (proj2 (Nat.ltb_lt _ _) Hp). reflexivity.
  - rewrite E1, E2, E3, Z.eqb_refl. simpl.
    rewrite (for_loop_upd_lookup DIM (fun p => cimag (cf p))).
    rewrite (proj2 (Nat.ltb_lt _ _) Hp). reflexivity.
Qed.

Lemma apply_em_farfield_direct_func (K : Consts) (G : Env)
  (U : Farfield_Uninit) (func : nat -> R) (d_func : nat -> Z -> nat -> R)
  (xi : nat -> R) (bc_name : Z) (bc_data : nat -> R) :
  ff_func (apply_em_farfield_direct K G U func d_func xi bc_name bc_data)
    = fst (fst (fst (emit K U bc_name (cpx_func K G U bc_name bc_data) func))).
Proof.
  unfold apply_em_farfield_direct.
  destruct (emit K U bc_name _ func) as [[[f v] re] im]. reflexivity.
Qed.

(** C1, evaluated.  With surface normal [x], no interior field and the
    incident field [(0, 1, 0)], the E-real kind emits [func[2] = 0],
    whereas the triple sum of the claim has real part 1 in component 2. *)
Theorem farfield_E_residual_keeps_last_term :
  ff_func (apply_em_farfield_direct demo_consts farfield_env
             demo_farfield_uninit zero_vec zero_d_func zero_vec 101
             bc_data_incident_y) 2
    = 0
  /\ creal (Csum DIM (fun q => Csum DIM (fun r =>
       ZtoC (permute 2 q r)
       * (tau (impedance1 farfield_env)
              (impedance2 farfield_env demo_farfield_uninit
                 bc_data_incident_y)
          / (RtoC 1
             + Gamma (impedance1 farfield_env)
                 (impedance2 farfield_env demo_farfield_uninit
                    bc_data_incident_y))
          * normal farfield_env demo_farfield_uninit q
          * E1 farfield_env demo_farfield_uninit r
          + normal farfield_env demo_farfield_uninit q
            * incident demo_farfield_uninit bc_data_incident_y r))))%C
     = 1.
Proof.
  split.
  - rewrite apply_em_farfield_direct_func.
    rewrite (emit_real_kinds demo_consts demo_farfield_uninit 101 _ _ 2%nat)
      by (first [unfold DIM; lia | left; reflexivity]).
    rewrite (cpx_func_E_kind demo_consts farfield_env demo_farfield_uninit
               101 bc_data_incident_y 2 eq_refl)
      by (unfold DIM; lia).
    reflexivity.
  - generalize (tau (impedance1 farfield_env)
                  (impedance2 farfield_env demo_farfield_uninit
                     bc_data_incident_y)
                / (RtoC 1
                   + Gamma (impedance1 farfield_env)
                       (impedance2 farfield_env demo_farfield_uninit
                          bc_data_incident_y)))%C.
    intros t. unfold normal, E1, incident, for_loop, upd, DIM.
    simpl. unfold zero_vec. simpl. ring.
Qed.

(* ------------------------------------------------------------------ *)
(** ** The exterior impedance *)

Lemma csqrt_nonneg_real (x : R) :
  0 <= x -> csqrt (mkC x 0) = mkC (sqrt x) 0.
Proof.
  intros Hx. unfold csqrt, Cabs, Cnorm2. simpl.
  replace (x * x + 0 * 0) with (x * x) by ring.
  rewrite (sqrt_square x Hx).
  replace ((x + x) / 2) with x by field.
  replace ((x - x) / 2) with 0 by field.
  rewrite sqrt_0. f_equal. ring.
Qed.

(** The exterior impedance is built from the content of [n2] on entry and
    from [bc_data[1]]; [bc_data[0]] only reaches [ns]. *)
Lemma impedance2_independent_of_bc_data_0 (G : Env) (U : Farfield_Uninit)
  (bc_data bc_data' : nat -> R) :
  bc_data 1%nat = bc_data' 1%nat ->
  impedance2 G U bc_data = impedance2 G U bc_data'.
Proof.
  intros H. unfold impedance2, cpx_permittivity2. rewrite H. reflexivity.
Qed.

(** The incident field has real parts [bc_data[2..4]] and imaginary parts
    [bc_data[5..7]]. *)
Lemma incident_layout (U : Farfield_Uninit) (bc_data : nat -> R) :
  incident U bc_data 0 = mkC (bc_data 2%nat) (bc_data 5%nat)
  /\ incident U bc_data 1 = mkC (bc_data 3%nat) (bc_data 6%nat)
  /\ incident U bc_data 2 = mkC (bc_data 4%nat) (bc_data 7%nat).
Proof.
  unfold incident, upd; simpl. repeat split; Cring.
Qed.

(** C3, evaluated.  With [bc_data[0] = 2], [bc_data[1] = 0] and [n2]
    holding 1 on entry, [bc_data[0]] ends up in [ns], the exterior
    permittivity is 1 and not [(2 + 0i)^2 = 4], and the exterior impedance
    differs from [csqrt(mag_permeability / 4)]. *)
Theorem impedance2_reads_unassigned_n2 :
  ff_ns (apply_em_farfield_direct demo_consts farfield_env
           demo_farfield_uninit zero_vec zero_d_func zero_vec 101
           bc_data_n2) = 2
  /\ cpx_permittivity2 farfield_env demo_farfield_uninit bc_data_n2
     = RtoC 1
  /\ cpx_permittivity farfield_env (bc_data_n2 0%nat) (bc_data_n2 1%nat)
     = RtoC 4
  /\ impedance2 farfield_env demo_farfield_uninit bc_data_n2
     <> csqrt (RtoC mag_permeability
               / cpx_permittivity farfield_env (bc_data_n2 0%nat)
                   (bc_data_n2 1%nat))%C.
Proof.
  assert (Hcode : cpx_permittivity2 farfield_env demo_farfield_uninit
                    bc_data_n2 = RtoC 1).
  { unfold cpx_permittivity2, cpx_permittivity, SQUARE. Cring. }
  assert (Hclaim : cpx_permittivity farfield_env (bc_data_n2 0%nat)
                     (bc_data_n2 1%nat) = RtoC 4).
  { unfold cpx_permittivity, SQUARE. Cring. }
  assert (Hmu : 0 < mag_permeability) by (unfold mag_permeability; lra).
  split; [reflexivity|]. split; [exact Hcode|]. split; [exact Hclaim|].
  unfold impedance2. rewrite Hcode, Hclaim.
  replace (RtoC mag_permeability / RtoC 1)%C
    with (mkC mag_permeability 0)
    by (apply Ceq; simpl; unfold Cnorm2; simpl; field).
  replace (RtoC mag_permeability / RtoC 4)%C
    with (mkC (mag_permeability / 4) 0)
    by (apply Ceq; simpl; unfold Cnorm2; simpl; field).
  rewrite !csqrt_nonneg_real by lra.
  intros Heq. injection Heq as Heq.
  apply sqrt_inj in Heq; lra.
Qed.

(* ------------------------------------------------------------------ *)
(** ** The coefficient quotients *)

(** For the real E selectors each of the four quotients is the coefficient
    divided by [n] or by [k]. *)
Lemma em_coeff_switch_E_real (K : Consts) (G : Env) (em_var : Z)
  (omega n k : R) (eps : complex) (cf0 : nat -> R) :
  (em_var =? EM_E1_REAL K)%Z || (em_var =? EM_E2_REAL K)%Z
    || (em_var =? EM_E3_REAL K)%Z = true ->
  exists c, em_coeff_switch K G em_var omega n k eps cf0 = Some c
    /\ emf_coeff_dn c = emf_coeff c / n
    /\ emf_coeff_dk c = emf_coeff c / k
    /\ conj_coeff_dn c = conj_coeff c / n
    /\ conj_coeff_dk c = conj_coeff c / k.
Proof.
  intros H. unfold em_coeff_switch. rewrite H.
  eexists; split; [reflexivity|]. simpl. repeat split; reflexivity.
Qed.

(** For the imaginary E selectors three quotients are the coefficient
    divided by [n] or [k]; [conj_coeff_dk] is the opposite of
    [conj_coeff / k]. *)
Lemma em_coeff_switch_E_imag (K : Consts) (G : Env) (em_var : Z)
  (omega n k : R) (eps : complex) (cf0 : nat -> R) :
  (em_var =? EM_E1_REAL K)%Z || (em_var =? EM_E2_REAL K)%Z
    || (em_var =? EM_E3_REAL K)%Z = false ->
  (em_var =? EM_E1_IMAG K)%Z || (em_var =? EM_E2_IMAG K)%Z
    || (em_var =? EM_E3_IMAG K)%Z = true ->
  exists c, em_coeff_switch K G em_var omega n k eps cf0 = Some c
    /\ emf_coeff_dn c = emf_coeff c / n
    /\ emf_coeff_dk c = emf_coeff c / k
    /\ conj_coeff_dn c = conj_coeff c / n
    /\ conj_coeff_dk c = - (conj_coeff c / k).
Proof.
  intros H0 H. unfold em_coeff_switch. rewrite H0, H.
  eexists; split; [reflexivity|]. simpl.
  repeat split; try reflexivity. unfold Rdiv. ring.
Qed.

Lemma nonzero_true (x : R) : x <> 0 -> nonzero x = true.
Proof.
  intros H. unfold nonzero. destruct (Req_dec_T x 0); [contradiction|].
  reflexivity.
Qed.

Lemma checked_div_zero (x : R) : checked_div x 0 = None.
Proof.
  unfold checked_div. destruct (Req_dec_T 0 0) as [_|H]; [reflexivity|].
  exfalso. apply H. reflexivity.
Qed.

Lemma checked_div_defined (x y : R) :
  y <> 0 -> checked_div x y = Some (x / y).
Proof.
  intros H. unfold checked_div.
  destruct (Req_dec_T y 0); [contradiction | reflexivity].
Qed.

(** Away from [n = 0] and [k = 0] the quotients with their domain are the
    quotients of [em_coeff_switch]. *)
Lemma em_coeff_quotients_refine (K : Consts) (G : Env) (em_var : Z)
  (omega n k : R) (eps : complex) (cf0 : nat -> R) (c : Coefficients) :
  n <> 0 -> k <> 0 ->
  em_coeff_switch K G em_var omega n k eps cf0 = Some c ->
  em_coeff_quotients K em_var omega n k eps
    = Some {| q_emf_coeff_dn := Some (emf_coeff_dn c);
              q_emf_coeff_dk := Some (emf_coeff_dk c);
              q_conj_coeff_dn := Some (conj_coeff_dn c);
              q_conj_coeff_dk := Some (conj_coeff_dk c) |}.
Proof.
  intros Hn Hk.
  unfold em_coeff_switch, em_coeff_quotients, E_real_selector,
    E_imag_selector, H_real_selector, H_imag_selector.
  destruct ((em_var =? EM_E1_REAL K)%Z || (em_var =? EM_E2_REAL K)%Z
            || (em_var =? EM_E3_REAL K)%Z);
    [|destruct ((em_var =? EM_E1_IMAG K)%Z || (em_var =? EM_E2_IMAG K)%Z
                || (em_var =? EM_E3_IMAG K)%Z);
      [|destruct ((em_var =? EM_H1_REAL K)%Z || (em_var =? EM_H2_REAL K)%Z
                  || (em_var =? EM_H3_REAL K)%Z);
        [|destruct ((em_var =? EM_H1_IMAG K)%Z
                    || (em_var =? EM_H2_IMAG K)%Z
                    || (em_var =? EM_H3_IMAG K)%Z); [|discriminate]]]];
    intros Hc; injection Hc as <-; simpl;
    rewrite ?(checked_div_defined _ n Hn), ?(checked_div_defined _ k Hk);
    reflexivity.
Qed.

(** With all four quotients numbers, the temperature term with its domain
    is the term [jac_T] adds. *)
Lemma jac_T_advection_refine (K : Consts) (G : Env) (eqn : Z)
  (c : Coefficients) (EMF EMF_conj : R)
  (d_n d_k : CONDUCTIVITY_DEPENDENCE_STRUCT) (i j : nat) :
  jac_T_advection_checked K G eqn
    {| q_emf_coeff_dn := Some (emf_coeff_dn c);
       q_emf_coeff_dk := Some (emf_coeff_dk c);
       q_conj_coeff_dn := Some (conj_coeff_dn c);
       q_conj_coeff_dk := Some (conj_coeff_dk c) |}
    EMF EMF_conj d_n d_k i j
  = Some (if advection_on K G eqn then
            (0 + phi (bf G eqn) i
                 * (EMF * (emf_coeff_dn c * cd_T d_n j
                           + emf_coeff_dk c * cd_T d_k j)
                    + EMF_conj * (conj_coeff_dn c * cd_T d_n j
                                  + conj_coeff_dk c * cd_T d_k j))
                 * detJ (bf G eqn) * fv_wt G)
            * fv_h3 G * pd_etm G eqn (LOG2_ADVECTION K)
          else 0).
Proof.
  unfold jac_T_advection_checked, sensitivity_factor.
  destruct (advection_on K G eqn); reflexivity.
Qed.


Lemma nonzero_zero : nonzero 0 = false.
Proof.
  unfold nonzero. destruct (Req_dec_T 0 0) as [_|H]; [reflexivity|].
  exfalso. apply H. reflexivity.
Qed.


(* ------------------------------------------------------------------ *)
(** ** The Jacobian of [assemble_emwave] *)

Lemma add_J_lookup (J : Z -> Z -> nat -> nat -> R) (peqn pvar : Z)
  (i j : nat) (x : R) (a b : Z) (i' j' : nat) :
  add_J J peqn pvar i j x a b i' j'
    = if (a =? peqn)%Z && (b =? pvar)%Z && (i' =? i)%nat && (j' =? j)%nat
      then J a b i' j' + x else J a b i' j'.
Proof.
  unfold add_J, updZ, upd.
  destruct (Z.eqb_spec a peqn) as [->|]; simpl; [|reflexivity].
  destruct (Z.eqb_spec b pvar) as [->|]; simpl; [|reflexivity].
  destruct (Nat.eqb_spec i' i) as [->|]; simpl; [|reflexivity].
  destruct (Nat.eqb_spec j' j) as [->|]; reflexivity.
Qed.

(** A loop that adds [f j] to the entry [(peqn, pvar, i, j)] for each
    [j < n]. *)
Lemma add_J_loop_entries (n : nat) (f : nat -> R)
  (J : Z -> Z -> nat -> nat -> R) (peqn pvar : Z) (i : nat)
  (a b : Z) (i' j' : nat) :
  for_loop n (fun j J => add_J J peqn pvar i j (f j)) J a b i' j'
    = if (a =? peqn)%Z && (b =? pvar)%Z && (i' =? i)%nat && (j' <? n)%nat
      then J a b i' j' + f j' else J a b i' j'.
Proof.
  induction n as [|n IH].
  - unfold for_loop; simpl. rewrite andb_false_r. reflexivity.
  - rewrite for_loop_S, add_J_lookup, IH.
    destruct ((a =? peqn)%Z && (b =? pvar)%Z && (i' =? i)%nat); simpl;
      [|reflexivity].
    destruct (Nat.eqb_spec j' n) as [Heq|Hne];
      destruct (Nat.ltb_spec j' n), (Nat.ltb_spec j' (S n)); try lia;
      try reflexivity.
    subst j'. reflexivity.
Qed.

(** X18. The primary-variable block is the exact derivative of the residual:
    moving dof [j] of [em_var] by [h] moves [EMF] by [h * phi_j], and the
    central difference of [residual_formula] is [2 h] times the entry the
    block adds at [(i, j)]. *)
Lemma jac_EMF_central_difference (K : Consts) (G : Env) (eqn em_var : Z)
  (c : Coefficients) (EMF EMF_conj : R) (dir i j : nat)
  (J : Z -> Z -> nat -> nat -> R) (h : R) :
  pd_v G em_var <> 0%Z ->
  (j < ei_dof G em_var)%nat ->
  residual_formula K G eqn c (EMF + h * phi (bf G em_var) j) EMF_conj dir i
  - residual_formula K G eqn c (EMF - h * phi (bf G em_var) j) EMF_conj dir i
  = 2 * h * (jac_EMF K G eqn em_var c i J
               (upd_ep G eqn) (upd_vp G em_var) i j
             - J (upd_ep G eqn) (upd_vp G em_var) i j).
Proof.
  intros Hv Hj. unfold jac_EMF, truthy. cbv zeta.
  apply Z.eqb_neq in Hv. rewrite Hv. change (negb false) with true.
  cbv iota.
  rewrite (add_J_loop_entries (ei_dof G em_var)
    (fun j => if advection_on K G eqn
              then (0 + phi (bf G eqn) i * emf_coeff c * phi (bf G em_var) j
                        * detJ (bf G eqn) * fv_wt G)
                   * fv_h3 G * pd_etm G eqn (LOG2_ADVECTION K)
              else 0)).
  rewrite !Z.eqb_refl, Nat.eqb_refl, (proj2 (Nat.ltb_lt _ _) Hj). simpl.
  unfold residual_formula.
  destruct (advection_on K G eqn), (diffusion_on K G eqn); ring.
Qed.

(** X19. The conjugate-variable block is the exact derivative of the
    residual in the same sense: moving dof [j] of [em_conjvar] by [h] moves
    [EMF_conj] by [h * phi_j], and the central difference of
    [residual_formula] is [2 h] times the entry the block adds at
    [(i, j)]. *)
Lemma jac_EMF_conj_central_difference (K : Consts) (G : Env)
  (eqn em_conjvar : Z) (c : Coefficients) (EMF EMF_conj : R)
  (dir i j : nat) (J : Z -> Z -> nat -> nat -> R) (h : R) :
  pd_v G em_conjvar <> 0%Z ->
  (j < ei_dof G em_conjvar)%nat ->
  residual_formula K G eqn c EMF (EMF_conj + h * phi (bf G em_conjvar) j)
    dir i
  - residual_formula K G eqn c EMF (EMF_conj - h * phi (bf G em_conjvar) j)
      dir i
  = 2 * h * (jac_EMF_conj K G eqn em_conjvar c i J
               (upd_ep G eqn) (upd_vp G em_conjvar) i j
             - J (upd_ep G eqn) (upd_vp G em_conjvar) i j).
Proof.
  intros Hv Hj. unfold jac_EMF_conj, truthy. cbv zeta.
  apply Z.eqb_neq in Hv. rewrite Hv. change (negb false) with true.
  cbv iota.
  rewrite (add_J_loop_entries (ei_dof G em_conjvar)
    (fun j => if advection_on K G eqn
              then (0 + phi (bf G eqn) i * conj_coeff c
                        * phi (bf G em_conjvar) j
                        * detJ (bf G eqn) * fv_wt G)
                   * fv_h3 G * pd_etm G eqn (LOG2_ADVECTION K)
              else 0)).
  rewrite !Z.eqb_refl, Nat.eqb_refl, (proj2 (Nat.ltb_lt _ _) Hj). simpl.
  unfold residual_formula.
  destruct (advection_on K G eqn), (diffusion_on K G eqn); ring.
Qed.

(** [conj_coeff_dn] is the coefficient over [n], which is not its
    derivative: at [n = k = 1] it vanishes, while every central difference
    of [conj_coeff] in [n] is 2. *)
Lemma conj_coeff_dn_not_derivative (h : R) :
  h <> 0 ->
  match em_coeff_switch demo_consts lossy_env 1 1 1 1
          (cpx_permittivity lossy_env 1 1) zero_vec,
        em_coeff_switch demo_consts lossy_env 1 1 (1 + h) 1
          (cpx_permittivity lossy_env (1 + h) 1) zero_vec,
        em_coeff_switch demo_consts lossy_env 1 1 (1 - h) 1
          (cpx_permittivity lossy_env (1 - h) 1) zero_vec with
  | Some c, Some cp, Some cm =>
      conj_coeff_dn c = 0
      /\ (conj_coeff cp - conj_coeff cm) / (2 * h) = 2
  | _, _, _ => False
  end.
Proof.
  intros Hh. simpl. split; field. exact Hh.
Qed.

(** C2, evaluated.  With only the curl term switched on, all fields zero
    and the first mesh displacement active, the residual entry is 0 for
    every value of the optical constants and of the geometry (so each of
    its finite differences in the mesh displacement is 0), yet the entry
    added to the mesh-displacement block of the Jacobian is 3. *)
Theorem mesh_jacobian_not_residual_derivative :
  (forall (n k det_J h3 wt : R) (gphi : nat -> nat -> R),
     lec_R (snd (assemble_emwave demo_consts
                   (mesh_env n k det_J h3 wt gphi) 0 0 0 1 1 4
                   demo_emwave_uninit zero_lec)) 1 0 = 0)
  /\ lec_J (snd (assemble_emwave demo_consts
                   (mesh_env 1 1 1 1 1 (fun _ _ => 1)) 0 0 0 1 1 4
                   demo_emwave_uninit zero_lec)) 1 30 0 0 = 3.
Proof.
  split.
  - intros n k det_J h3 wt gphi.
    assert (Hpd : pd_e (mesh_env n k det_J h3 wt gphi) 1 <> 0%Z)
      by (simpl; lia).
    destruct (assemble_emwave_lec_R demo_consts
                (mesh_env n k det_J h3 wt gphi) 0 0 0 1 1 4
                demo_emwave_uninit zero_lec _ _ _ _ 1%Z 0%nat Hpd
                eq_refl eq_refl) as [_ HR].
    cbv zeta in HR. rewrite HR. clear HR.
    unfold residual_formula, advection_on, diffusion_on, truthy.
    simpl. unfold load_cross_field, for_loop, upd, zero_vec. simpl. ring.
  - unfold assemble_emwave, residual_loop, jacobian_loop, jac_EMF,
      jac_EMF_conj, jac_cross_field, jac_T, jac_mesh, jac_species,
      diff_a, diff_b, diff_c, diff_d, load_grad_phi_i, xfem_skips,
      advection_on, diffusion_on, truthy, add_J, add_R, updZ, upd,
      for_loop, DIM.
    simpl. lra.
Qed.

(* ------------------------------------------------------------------ *)
(** ** The theorems at concrete inputs *)

Lemma complex_cross_vectors_spec_witness :
  complex_cross_vectors (normal farfield_env demo_farfield_uninit)
    (incident demo_farfield_uninit bc_data_incident_y) zero_cvec 2
  = (- complex_cross_vectors
         (incident demo_farfield_uninit bc_data_incident_y)
         (normal farfield_env demo_farfield_uninit) zero_cvec 2)%C.
Proof.
  refine (proj2 (complex_cross_vectors_spec _ _ _ _ 2%nat _)).
  unfold DIM; lia.
Defined.

Lemma assemble_emwave_inactive_witness :
  assemble_emwave demo_consts farfield_env 0 0 0 1 1 4
    demo_emwave_uninit zero_lec = (0%Z, zero_lec).
Proof.
  apply assemble_emwave_inactive. reflexivity.
Defined.

Lemma assemble_emwave_invalid_selector_witness :
  assemble_emwave demo_consts advection_env 0 0 0 1 99 4
    demo_emwave_uninit zero_lec = ((-1)%Z, zero_lec).
Proof.
  refine (proj1 (assemble_emwave_invalid_selector demo_consts advection_env
                   0 0 0 1 99 4 demo_emwave_uninit zero_lec _ _)).
  - simpl; lia.
  - simpl; lia.
Defined.

Lemma apply_em_farfield_direct_unknown_kind_witness :
  ff_status (apply_em_farfield_direct demo_consts farfield_env
               demo_farfield_uninit zero_vec zero_d_func zero_vec 0
               bc_data_incident_y) = 0%Z
  /\ ff_func (apply_em_farfield_direct demo_consts farfield_env
                demo_farfield_uninit zero_vec zero_d_func zero_vec 0
                bc_data_incident_y) = zero_vec.
Proof.
  destruct (apply_em_farfield_direct_unknown_kind demo_consts farfield_env
              demo_farfield_uninit zero_vec zero_d_func zero_vec 0
              bc_data_incident_y) as (Hs & Hf & _).
  - simpl; lia.
  - split; [exact Hs | exact Hf].
Defined.

Lemma farfield_coefficients_witness :
  (tau (RtoC 1) (RtoC 3) - Gamma (RtoC 1) (RtoC 3))%C = RtoC 1.
Proof.
  refine (proj1 (proj2 (proj2
            (farfield_coefficients demo_consts farfield_env
               demo_farfield_uninit bc_data_n2 (RtoC 1) (RtoC 3) _)))).
  intros E. apply (f_equal creal) in E. simpl in E. lra.
Defined.

(* ================================================================== *)
(** * Further properties of the three routines *)

(* ------------------------------------------------------------------ *)
(** ** [complex_cross_vectors] *)

(** X1. The three components [complex_cross_vectors] leaves in [v2] are
    those of the usual cross product:
    [(a1 b2 - a2 b1, a2 b0 - a0 b2, a0 b1 - a1 b0)]. *)
Theorem complex_cross_vectors_components (a b out : nat -> complex) :
  complex_cross_vectors a b out 0 = (a 1%nat * b 2%nat - a 2%nat * b 1%nat)%C
  /\ complex_cross_vectors a b out 1
     = (a 2%nat * b 0%nat - a 0%nat * b 2%nat)%C
  /\ complex_cross_vectors a b out 2
     = (a 0%nat * b 1%nat - a 1%nat * b 0%nat)%C.
Proof.
  repeat split;
    unfold complex_cross_vectors, for_loop, memset0, upd, DIM; simpl; Cring.
Qed.

(** X2. [complex_cross_vectors] writes the first [DIM] cells of [v2] only:
    every cell from index [DIM] on keeps its content. *)
Theorem complex_cross_vectors_frame (a b out : nat -> complex) (k : nat) :
  (DIM <= k)%nat -> complex_cross_vectors a b out k = out k.
Proof.
  unfold DIM. intros Hk.
  destruct k as [|[|[|k]]]; try lia.
  unfold complex_cross_vectors, for_loop, memset0, upd, DIM. reflexivity.
Qed.

Lemma complex_cross_vectors_frame_witness :
  complex_cross_vectors cvec_a cvec_b zero_cvec 5 = zero_cvec 5.
Proof.
  apply complex_cross_vectors_frame. unfold DIM; lia.
Defined.

(** X3. The cross product of a vector with itself vanishes, and the
    product is orthogonal to both factors for the bilinear dot product. *)
Theorem complex_cross_vectors_orthogonal (a b out : nat -> complex) :
  complex_cross_vectors a a out 0 = RtoC 0
  /\ complex_cross_vectors a a out 1 = RtoC 0
  /\ complex_cross_vectors a a out 2 = RtoC 0
  /\ Cdot a (complex_cross_vectors a b out) = RtoC 0
  /\ Cdot b (complex_cross_vectors a b out) = RtoC 0.
Proof.
  repeat split;
    unfold Cdot, complex_cross_vectors, for_loop, memset0, upd, DIM; simpl;
    Cring.
Qed.

(** X4. [complex_cross_vectors] is linear in its first argument: it
    distributes over the sum of two vectors and commutes with the
    multiplication by a complex scalar. *)
Theorem complex_cross_vectors_linear (a a' b out : nat -> complex)
  (z : complex) (k : nat) :
  (k < DIM)%nat ->
  complex_cross_vectors (fun i => a i + a' i)%C b out k
    = (complex_cross_vectors a b out k
       + complex_cross_vectors a' b out k)%C
  /\ complex_cross_vectors (fun i => z * a i)%C b out k
     = (z * complex_cross_vectors a b out k)%C.
Proof.
  unfold DIM. intros Hk.
  destruct k as [|[|[|k]]]; try lia;
    (split;
     unfold complex_cross_vectors, for_loop, memset0, upd, DIM; simpl;
     Cring).
Qed.

Lemma complex_cross_vectors_linear_witness :
  complex_cross_vectors (fun i => cvec_a i + cvec_b i)%C cvec_b zero_cvec 1
    = (complex_cross_vectors cvec_a cvec_b zero_cvec 1
       + complex_cross_vectors cvec_b cvec_b zero_cvec 1)%C.
Proof.
  refine (proj1 (complex_cross_vectors_linear cvec_a cvec_b cvec_b zero_cvec
                   (RtoC 1) 1 _)).
  unfold DIM; lia.
Defined.

(* ------------------------------------------------------------------ *)
(** ** Impedances and boundary coefficients *)

Lemma csqrt_sq (z : complex) : (csqrt z * csqrt z)%C = z.
Proof.
  destruct z as [x y]. unfold csqrt, Cabs, Cnorm2.
  cbn [creal cimag].
  set (m := sqrt (x * x + y * y)).
  assert (Hm0 : 0 <= m) by apply sqrt_pos.
  assert (Hmm : m * m = x * x + y * y) by (apply sqrt_sqrt; nra).
  assert (Hp : 0 <= (m + x) / 2) by nra.
  assert (Hn : 0 <= (m - x) / 2) by nra.
  set (s := if Rle_dec 0 y then 1 else -1).
  assert (Hs : s * s = 1) by (unfold s; destruct (Rle_dec 0 y); ring).
  assert (Hsy : s * Rabs y = y).
  { unfold s; destruct (Rle_dec 0 y).
    - rewrite Rabs_right; lra.
    - rewrite Rabs_left; lra. }
  assert (Hprod : sqrt ((m + x) / 2) * sqrt ((m - x) / 2) = Rabs y / 2).
  { rewrite <- sqrt_mult by assumption.
    replace ((m + x) / 2 * ((m - x) / 2)) with (Rsqr (y / 2))
      by (unfold Rsqr; nra).
    rewrite sqrt_Rsqr_abs. unfold Rdiv. rewrite Rabs_mult.
    rewrite (Rabs_right (/ 2)) by lra. reflexivity. }
  pose proof (sqrt_sqrt _ Hp) as Hpp. pose proof (sqrt_sqrt _ Hn) as Hnn.
  apply Ceq; cbn [creal cimag Cmul].
  - replace (sqrt ((m + x) / 2) * sqrt ((m + x) / 2)
             - s * sqrt ((m - x) / 2) * (s * sqrt ((m - x) / 2)))
      with (sqrt ((m + x) / 2) * sqrt ((m + x) / 2)
            - (s * s) * (sqrt ((m - x) / 2) * sqrt ((m - x) / 2))) by ring.
    rewrite Hs, Hpp, Hnn. field.
  - replace (sqrt ((m + x) / 2) * (s * sqrt ((m - x) / 2))
             + s * sqrt ((m - x) / 2) * sqrt ((m + x) / 2))
      with (2 * s * (sqrt ((m + x) / 2) * sqrt ((m - x) / 2))) by ring.
    rewrite Hprod. lra.
Qed.

Lemma Cdiv_mul_cancel (a s : complex) :
  s <> RtoC 0 -> (a / s * s)%C = a.
Proof.
  intros Hs. pose proof (Cnorm2_nonzero _ Hs) as Hn.
  destruct a as [x y], s as [u v]. unfold Cnorm2 in Hn; simpl in Hn.
  apply Ceq; simpl; unfold Cnorm2; simpl; field; exact Hn.
Qed.

Lemma Cmul_div_cancel (a t : complex) :
  t <> RtoC 0 -> (a * t / t)%C = a.
Proof.
  intros Ht. pose proof (Cnorm2_nonzero _ Ht) as Hn.
  destruct a as [x y], t as [u v]. unfold Cnorm2 in Hn; simpl in Hn.
  apply Ceq; simpl; unfold Cnorm2; simpl; field; exact Hn.
Qed.

Lemma tau_nonzero (Z1 Z2 : complex) :
  (Z2 + Z1)%C <> RtoC 0 -> Z2 <> RtoC 0 -> tau Z1 Z2 <> RtoC 0.
Proof.
  intros Hs H2 Ht. apply H2.
  pose proof (Cdiv_mul_cancel (RtoC 2 * Z2)%C (Z2 + Z1)%C Hs) as Hc.
  fold (tau Z1 Z2) in Hc. rewrite Ht in Hc.
  destruct Z2 as [x y].
  apply (f_equal creal) in Hc as Hr. apply (f_equal cimag) in Hc as Hi.
  simpl in Hr, Hi. unfold RtoC. f_equal; lra.
Qed.

Lemma one_plus_Gamma (Z1 Z2 : complex) :
  (Z2 + Z1)%C <> RtoC 0 -> (RtoC 1 + Gamma Z1 Z2)%C = tau Z1 Z2.
Proof.
  intros Hs. pose proof (tau_minus_Gamma Z1 Z2 Hs) as Hd.
  apply Ceq.
  - apply (f_equal creal) in Hd. simpl in *. lra.
  - apply (f_equal cimag) in Hd. simpl in *. lra.
Qed.

Lemma csqrt_quotient_nonzero (eps : complex) :
  eps <> RtoC 0 -> csqrt (RtoC mag_permeability / eps)%C <> RtoC 0.
Proof.
  intros He Hz.
  pose proof (csqrt_sq (RtoC mag_permeability / eps)%C) as Hsq.
  rewrite Hz in Hsq.
  pose proof (Cdiv_mul_cancel (RtoC mag_permeability) eps He) as Hc.
  rewrite <- Hsq in Hc.
  apply (f_equal creal) in Hc. simpl in Hc.
  unfold mag_permeability in Hc. lra.
Qed.

(** X5. For a medium whose complex permittivity is not zero the impedance
    is not zero and squares to [mag_permeability] over that permittivity;
    this holds for the interior and for the exterior medium. *)
Theorem impedance_squared (G : Env) (U : Farfield_Uninit)
  (bc_data : nat -> R) :
  cpx_permittivity G (fst (refractive_index G 0))
    (fst (extinction_index G 0)) <> RtoC 0 ->
  cpx_permittivity2 G U bc_data <> RtoC 0 ->
  (impedance1 G * impedance1 G)%C
    = (RtoC mag_permeability
       / cpx_permittivity G (fst (refractive_index G 0))
           (fst (extinction_index G 0)))%C
  /\ impedance1 G <> RtoC 0
  /\ (impedance2 G U bc_data * impedance2 G U bc_data)%C
     = (RtoC mag_permeability / cpx_permittivity2 G U bc_data)%C
  /\ impedance2 G U bc_data <> RtoC 0.
Proof.
  unfold impedance1, impedance2.
  destruct (refractive_index G 0) as [n1 d1].
  destruct (extinction_index G 0) as [k1 d2]. simpl fst.
  intros H1 H2. repeat split.
  - apply csqrt_sq.
  - apply csqrt_quotient_nonzero, H1.
  - apply csqrt_sq.
  - apply csqrt_quotient_nonzero, H2.
Qed.

Lemma impedance_squared_witness :
  (impedance1 farfield_env * impedance1 farfield_env)%C
    = (RtoC mag_permeability / cpx_permittivity farfield_env 1 0)%C
  /\ impedance1 farfield_env <> RtoC 0.
Proof.
  destruct (impedance_squared farfield_env demo_farfield_uninit
              bc_data_incident_y) as (H1 & H2 & _).
  - intros E. apply (f_equal creal) in E. simpl in E. lra.
  - intros E. apply (f_equal creal) in E. simpl in E. lra.
  - split; [exact H1 | exact H2].
Defined.

(** X6. In a lossless interior medium (extinction 0, positive refractive
    index [n1], positive base permittivity) the interior impedance is the
    real number [sqrt(mag_permeability / permittivity) / n1]. *)
Theorem impedance1_lossless (G : Env) :
  fst (extinction_index G 0) = 0 ->
  0 < fst (refractive_index G 0) ->
  0 < mp_permittivity G ->
  impedance1 G
    = RtoC (sqrt (mag_permeability / mp_permittivity G)
            / fst (refractive_index G 0)).
Proof.
  unfold impedance1.
  destruct (refractive_index G 0) as [n1 d1].
  destruct (extinction_index G 0) as [k1 d2]. simpl fst.
  intros -> Hn He.
  assert (Hmu : 0 < mag_permeability) by (unfold mag_permeability; lra).
  replace (RtoC mag_permeability / cpx_permittivity G n1 0)%C
    with (mkC (mag_permeability / mp_permittivity G / (n1 * n1)) 0).
  - assert (H0 : 0 < mag_permeability / mp_permittivity G)
      by (apply Rdiv_lt_0_compat; assumption).
    rewrite csqrt_nonneg_real.
    + unfold RtoC. f_equal.
      rewrite sqrt_div_alt by nra.
      rewrite sqrt_square by lra. reflexivity.
    + apply Rlt_le, Rdiv_lt_0_compat; nra.
  - unfold cpx_permittivity, SQUARE.
    apply Ceq; simpl; unfold Cnorm2; simpl; field; split; lra.
Qed.

Lemma impedance1_lossless_witness :
  impedance1 farfield_env = RtoC (sqrt (mag_permeability / 1) / 1).
Proof.
  apply (impedance1_lossless farfield_env); simpl; lra.
Defined.

(** X7. Between two media of the same non-zero impedance nothing is
    reflected and everything is transmitted: [Gamma = 0] and [tau = 1]. *)
Theorem farfield_matched_impedances (Z : complex) :
  Z <> RtoC 0 -> Gamma Z Z = RtoC 0 /\ tau Z Z = RtoC 1.
Proof.
  intros HZ. pose proof (Cnorm2_nonzero _ HZ) as Hn.
  destruct Z as [x y]. unfold Cnorm2 in Hn; simpl in Hn.
  unfold Gamma, tau. split.
  - apply Ceq; simpl; unfold Cnorm2; simpl; field; nra.
  - apply Ceq; simpl; unfold Cnorm2; simpl; field; nra.
Qed.

Lemma farfield_matched_impedances_witness :
  Gamma (mkC 1 1) (mkC 1 1) = RtoC 0 /\ tau (mkC 1 1) (mkC 1 1) = RtoC 1.
Proof.
  apply farfield_matched_impedances.
  intros E. apply (f_equal creal) in E. simpl in E. lra.
Defined.

(** X8. The factor [tau / (1 + Gamma)] that scales the interior field in
    the residual and in the Jacobian is 1 whenever the exterior impedance
    and the sum of the impedances are non-zero. *)
Theorem farfield_transmission_factor (Z1 Z2 : complex) :
  (Z2 + Z1)%C <> RtoC 0 ->
  Z2 <> RtoC 0 ->
  (tau Z1 Z2 / (RtoC 1 + Gamma Z1 Z2))%C = RtoC 1.
Proof.
  intros Hs H2. rewrite (one_plus_Gamma Z1 Z2 Hs).
  pose proof (tau_nonzero Z1 Z2 Hs H2) as Ht.
  pose proof (Cmul_div_cancel (RtoC 1) (tau Z1 Z2) Ht) as Hc.
  replace (RtoC 1 * tau Z1 Z2)%C with (tau Z1 Z2) in Hc by Cring.
  exact Hc.
Qed.

Lemma farfield_transmission_factor_witness :
  (tau (RtoC 1) (mkC 0 3) / (RtoC 1 + Gamma (RtoC 1) (mkC 0 3)))%C = RtoC 1.
Proof.
  apply farfield_transmission_factor.
  - intros E. apply (f_equal creal) in E. simpl in E. lra.
  - intros E. apply (f_equal cimag) in E. simpl in E. lra.
Defined.

(* ------------------------------------------------------------------ *)
(** ** The scalar residual of [apply_em_farfield_direct] *)

Lemma E1_components (G : Env) (U : Farfield_Uninit) (p : nat) :
  (p < DIM)%nat -> E1 G U p = mkC (fv_em_er G p) (fv_em_ei G p).
Proof.
  intros Hp. unfold E1.
  rewrite (for_loop_upd_lookup DIM
    (fun i => (RtoC (fv_em_er G i) + Complex_I * RtoC (fv_em_ei G i))%C)).
  rewrite (proj2 (Nat.ltb_lt _ _) Hp). Cring.
Qed.

Lemma incident_components (U : Farfield_Uninit) (bc_data : nat -> R)
  (p : nat) :
  (p < DIM)%nat ->
  incident U bc_data p = mkC (bc_data (2 + p)%nat) (bc_data (5 + p)%nat).
Proof.
  unfold DIM. intros Hp.
  destruct (incident_layout U bc_data) as (H0 & H1 & H2).
  destruct p as [|[|[|p]]]; try lia; assumption.
Qed.

Lemma emit_part (K : Consts) (U : Farfield_Uninit) (bc_name : Z)
  (cf : nat -> complex) (func : nat -> R) (p : nat) :
  is_E_kind K bc_name || is_H_kind K bc_name = true ->
  (p < DIM)%nat ->
  fst (fst (fst (emit K U bc_name cf func))) p
    = emitted_part K bc_name (cf p).
Proof.
  unfold is_E_kind, is_H_kind, emit, emitted_part. intros Hk Hp.
  destruct (bc_name =? EM_ER_FARFIELD_DIRECT_BC K)%Z;
    [|destruct (bc_name =? EM_EI_FARFIELD_DIRECT_BC K)%Z;
      [|destruct (bc_name =? EM_HR_FARFIELD_DIRECT_BC K)%Z;
        [|destruct (bc_name =? EM_HI_FARFIELD_DIRECT_BC K)%Z;
          [|discriminate]]]];
    simpl;
    first [ rewrite (for_loop_upd_lookup DIM (fun p => creal (cf p)))
          | rewrite (for_loop_upd_lookup DIM (fun p => cimag (cf p))) ];
    rewrite (proj2 (Nat.ltb_lt _ _) Hp); reflexivity.
Qed.

Lemma emit_frame (K : Consts) (U : Farfield_Uninit) (bc_name : Z)
  (cf : nat -> complex) (func : nat -> R) (p : nat) :
  (DIM <= p)%nat ->
  fst (fst (fst (emit K U bc_name cf func))) p = func p.
Proof.
  intros Hp. unfold emit.
  assert (Hlt : (p <? DIM)%nat = false) by (apply Nat.ltb_ge; exact Hp).
  destruct (bc_name =? EM_ER_FARFIELD_DIRECT_BC K)%Z;
    [|destruct (bc_name =? EM_EI_FARFIELD_DIRECT_BC K)%Z;
      [|destruct (bc_name =? EM_HR_FARFIELD_DIRECT_BC K)%Z;
        [|destruct (bc_name =? EM_HI_FARFIELD_DIRECT_BC K)%Z]]];
    simpl; try reflexivity;
    first [ rewrite (for_loop_upd_lookup DIM (fun p => creal (cf p)))
          | rewrite (for_loop_upd_lookup DIM (fun p => cimag (cf p))) ];
    rewrite Hlt; reflexivity.
Qed.

(** The impedances of the sample boundary point: both media have
    [n = 1], [k = 0] and unit permittivity. *)
Lemma sample_impedances (bc_data : nat -> R) :
  bc_data 1%nat = 0 ->
  impedance1 farfield_field_env = mkC (sqrt mag_permeability) 0
  /\ impedance2 farfield_field_env demo_farfield_uninit bc_data
     = mkC (sqrt mag_permeability) 0.
Proof.
  intros Hk.
  assert (Hmu : 0 <= mag_permeability) by (unfold mag_permeability; lra).
  split.
  - unfold impedance1. simpl.
    replace (RtoC mag_permeability / cpx_permittivity farfield_field_env 1 0)%C
      with (mkC mag_permeability 0).
    + apply csqrt_nonneg_real, Hmu.
    + unfold cpx_permittivity, SQUARE.
      apply Ceq; simpl; unfold Cnorm2; simpl; field.
  - unfold impedance2, cpx_permittivity2. rewrite Hk. simpl.
    replace (RtoC mag_permeability / cpx_permittivity farfield_field_env 1 0)%C
      with (mkC mag_permeability 0).
    + apply csqrt_nonneg_real, Hmu.
    + unfold cpx_permittivity, SQUARE.
      apply Ceq; simpl; unfold Cnorm2; simpl; field.
Qed.

Lemma sqrt_mag_permeability_pos : 0 < sqrt mag_permeability.
Proof. apply sqrt_lt_R0. unfold mag_permeability. lra. Qed.



(** X10. For an E-type kind with non-degenerate impedances (neither
    impedance zero, their sum not zero) the emitted residual is 0 in each
    of the three components, whatever the fields, the normal and the
    incident field. *)
Theorem farfield_E_residual_zero (K : Consts) (G : Env)
  (U : Farfield_Uninit) (func : nat -> R) (d_func : nat -> Z -> nat -> R)
  (xi : nat -> R) (bc_name : Z) (bc_data : nat -> R) (p : nat) :
  is_E_kind K bc_name = true ->
  impedance1 G <> RtoC 0 ->
  impedance2 G U bc_data <> RtoC 0 ->
  (impedance2 G U bc_data + impedance1 G)%C <> RtoC 0 ->
  (p < DIM)%nat ->
  ff_func (apply_em_farfield_direct K G U func d_func xi bc_name bc_data) p
    = 0.
Proof.
  intros HE _ _ _ Hp.
  rewrite apply_em_farfield_direct_func.
  rewrite emit_part by (try rewrite HE; auto).
  rewrite (cpx_func_E_kind K G U bc_name bc_data p HE Hp).
  unfold emitted_part.
  repeat match goal with |- context [if ?b then _ else _] => destruct b end;
    reflexivity.
Qed.

Lemma farfield_E_residual_zero_witness :
  ff_func (apply_em_farfield_direct demo_consts farfield_field_env
             demo_farfield_uninit ones_vec zero_d_func zero_vec 102
             bc_data_incident_x) 1 = 0.
Proof.
  destruct (sample_impedances bc_data_incident_x eq_refl) as [H1 H2].
  pose proof sqrt_mag_permeability_pos as Hpos.
  apply farfield_E_residual_zero.
  - reflexivity.
  - rewrite H1. intros E. apply (f_equal creal) in E. simpl in E. lra.
  - rewrite H2. intros E. apply (f_equal creal) in E. simpl in E. lra.
  - rewrite H1, H2. intros E. apply (f_equal creal) in E. simpl in E. lra.
  - unfold DIM; lia.
Defined.

(** X11. Whatever the kind, [apply_em_farfield_direct] leaves every cell
    of [func] from index [DIM] on as it was. *)
Theorem farfield_func_frame (K : Consts) (G : Env) (U : Farfield_Uninit)
  (func : nat -> R) (d_func : nat -> Z -> nat -> R) (xi : nat -> R)
  (bc_name : Z) (bc_data : nat -> R) (p : nat) :
  (DIM <= p)%nat ->
  ff_func (apply_em_farfield_direct K G U func d_func xi bc_name bc_data) p
    = func p.
Proof.
  intros Hp. rewrite apply_em_farfield_direct_func. apply emit_frame, Hp.
Qed.

Lemma farfield_func_frame_witness :
  ff_func (apply_em_farfield_direct demo_consts farfield_field_env
             demo_farfield_uninit ones_vec zero_d_func zero_vec 103
             bc_data_incident_x) 3 = ones_vec 3.
Proof.
  apply farfield_func_frame. unfold DIM; lia.
Defined.

(* ------------------------------------------------------------------ *)
(** ** The selectors of [assemble_emwave] *)

Ltac case_selectors v :=
  repeat match goal with
         | |- context [(v =? ?x)%Z] =>
             let E := fresh "E" in
             destruct (v =? x)%Z eqn:E; simpl;
             try (eexists; reflexivity)
         end.

Lemma em_field_switch_recognised (K : Consts) (G : Env) (em_var : Z) :
  recognised K em_var = true ->
  exists v, em_field_switch K G em_var = Some v.
Proof.
  unfold recognised, EM_field_vars, em_field_switch. simpl. intros H.
  case_selectors em_var.
  repeat match goal with
         | E : (_ =? _)%Z = false |- _ => rewrite E in H; clear E
         end.
  discriminate.
Qed.

Lemma em_coeff_switch_recognised (K : Consts) (G : Env) (em_var : Z)
  (omega n k : R) (eps : complex) (cf0 : nat -> R) :
  recognised K em_var = true ->
  exists c, em_coeff_switch K G em_var omega n k eps cf0 = Some c.
Proof.
  unfold recognised, EM_field_vars, em_coeff_switch. simpl. intros H.
  case_selectors em_var.
  repeat match goal with
         | E : (_ =? _)%Z = false |- _ => rewrite E in H; clear E
         end.
  discriminate.
Qed.

Lemma recognised_false (K : Consts) (em_var : Z) :
  recognised K em_var = false -> ~ In em_var (EM_field_vars K).
Proof.
  unfold recognised. intros H Hin.
  assert (Ht : existsb (Z.eqb em_var) (EM_field_vars K) = true).
  { apply existsb_exists. exists em_var. split; [exact Hin|].
    apply Z.eqb_refl. }
  rewrite Ht in H. discriminate.
Qed.

Lemma em_coeff_switch_default (K : Consts) (G : Env) (em_var : Z)
  (omega n k : R) (eps : complex) (cf0 : nat -> R) :
  ~ In em_var (EM_field_vars K) ->
  em_coeff_switch K G em_var omega n k eps cf0 = None.
Proof.
  intros H. unfold EM_field_vars in H. split_not_in H.
  unfold em_coeff_switch.
  repeat match goal with E : (_ =? _)%Z = false |- _ => rewrite E; clear E end.
  reflexivity.
Qed.

(** X12. [assemble_emwave] returns -1 exactly when the equation is active
    and the selector is none of the twelve identifiers, and 0 in every
    other case; both switches accept the same selectors, so the [default]
    arm of the second one is never the one that rejects a call. *)
Theorem assemble_emwave_status (K : Consts) (G : Env) (time tt dt : R)
  (em_eqn em_var em_conjvar : Z) (U : Emwave_Uninit)
  (lec : Local_Element_Contributions)
  (omega n k : R) (eps : complex) (cf0 : nat -> R) :
  fst (assemble_emwave K G time tt dt em_eqn em_var em_conjvar U lec)
    = (if truthy (pd_e G em_eqn) && negb (recognised K em_var)
       then -1 else 0)%Z
  /\ match em_field_switch K G em_var with
     | Some _ => true | None => false
     end = recognised K em_var
  /\ match em_coeff_switch K G em_var omega n k eps cf0 with
     | Some _ => true | None => false
     end = recognised K em_var.
Proof.
  split; [|split].
  - unfold assemble_emwave.
    destruct (truthy (pd_e G em_eqn)); simpl; [|reflexivity].
    destruct (refractive_index G time) as [n0 d_n].
    destruct (extinction_index G time) as [k0 d_k].
    destruct (recognised K em_var) eqn:Hr; simpl.
    + destruct (em_field_switch_recognised K G em_var Hr) as [[[a b] d] ->].
      destruct (em_coeff_switch_recognised K G em_var
                  (Acoustic_Frequency G) n0 k0 (cpx_permittivity G n0 k0)
                  (cross_field_0 U) Hr) as [c ->].
      destruct (if truthy (af_Assemble_Residual G) then _ else _)
        as [Rv g1].
      destruct (if truthy (af_Assemble_Jacobian G) then _ else _)
        as [J g2].
      reflexivity.
    + rewrite (em_field_switch_default K G em_var
                 (recognised_false K em_var Hr)).
      reflexivity.
  - destruct (recognised K em_var) eqn:Hr.
    + destruct (em_field_switch_recognised K G em_var Hr) as [v ->].
      reflexivity.
    + rewrite (em_field_switch_default K G em_var
                 (recognised_false K em_var Hr)).
      reflexivity.
  - destruct (recognised K em_var) eqn:Hr.
    + destruct (em_coeff_switch_recognised K G em_var omega n k eps cf0 Hr)
        as [c ->].
      reflexivity.
    + rewrite (em_coeff_switch_default K G em_var omega n k eps cf0
                 (recognised_false K em_var Hr)).
      reflexivity.
Qed.

(** X13. For an E selector the coupling coefficients are explicit in the
    optical constants: [emf_coeff = 2 omega n k eps0] and
    [conj_coeff = +/- omega (n^2 - k^2) eps0], with the plus sign for the
    real selectors; in particular the primary coefficient vanishes in a
    lossless medium ([k = 0]). *)
Theorem em_coeff_E_formulas (K : Consts) (G : Env) (em_var : Z)
  (omega n k : R) (cf0 : nat -> R) (c : Coefficients) :
  E_real_selector K em_var || E_imag_selector K em_var = true ->
  em_coeff_switch K G em_var omega n k (cpx_permittivity G n k) cf0
    = Some c ->
  emf_coeff c = 2 * omega * n * k * mp_permittivity G
  /\ conj_coeff c
     = (if E_real_selector K em_var then 1 else -1)
       * omega * (n * n - k * k) * mp_permittivity G.
Proof.
  unfold E_real_selector, E_imag_selector, em_coeff_switch.
  intros Hsel Hc.
  assert (Hemf : emf_coeff c = 2 * omega * n * k * mp_permittivity G
                 /\ conj_coeff c
                    = (if (em_var =? EM_E1_REAL K)%Z
                          || (em_var =? EM_E2_REAL K)%Z
                          || (em_var =? EM_E3_REAL K)%Z then 1 else -1)
                      * omega * (n * n - k * k) * mp_permittivity G).
  { destruct ((em_var =? EM_E1_REAL K)%Z || (em_var =? EM_E2_REAL K)%Z
              || (em_var =? EM_E3_REAL K)%Z).
    - injection Hc as <-. unfold cpx_permittivity, SQUARE. simpl.
      split; ring.
    - simpl in Hsel. rewrite Hsel in Hc.
      injection Hc as <-. unfold cpx_permittivity, SQUARE. simpl.
      split; ring. }
  exact Hemf.
Qed.

Lemma em_coeff_E_formulas_witness :
  exists c,
    em_coeff_switch demo_consts lossy_env 5 7 2 1
      (cpx_permittivity lossy_env 2 1) zero_vec = Some c
    /\ emf_coeff c = 2 * 7 * 2 * 1 * 1
    /\ conj_coeff c = -1 * 7 * (2 * 2 - 1 * 1) * 1.
Proof.
  eexists. split; [reflexivity|].
  destruct (em_coeff_E_formulas demo_consts lossy_env 5 7 2 1 zero_vec _
              eq_refl eq_refl) as (He & Hc).
  split; [exact He | exact Hc].
Defined.

(* ------------------------------------------------------------------ *)
(** ** What the Jacobian blocks leave alone *)

Lemma for_loop_invariant {S : Type} (P : S -> Prop) (n : nat)
  (body : nat -> S -> S) (s : S) :
  P s ->
  (forall i s', (i < n)%nat -> P s' -> P (body i s')) ->
  P (for_loop n body s).
Proof.
  intros H0 Hstep. induction n as [|n IH]; [exact H0|].
  rewrite for_loop_S. apply Hstep; [lia|].
  apply IH. intros i s' Hi. apply Hstep. lia.
Qed.

Lemma for_loop_fixed {S : Type} (n : nat) (body : nat -> S -> S) (s : S) :
  (forall i, (i < n)%nat -> body i s = s) -> for_loop n body s = s.
Proof.
  intros H. apply (for_loop_invariant (fun s' => s' = s)); [reflexivity|].
  intros i s' Hi ->. apply H, Hi.
Qed.

Lemma add_J_off_row (J : Z -> Z -> nat -> nat -> R) (peqn pvar : Z)
  (i j : nat) (x : R) (a b : Z) (i' j' : nat) :
  a <> peqn \/ i' <> i ->
  add_J J peqn pvar i j x a b i' j' = J a b i' j'.
Proof.
  intros H. rewrite add_J_lookup.
  destruct (Z.eqb_spec a peqn), (Nat.eqb_spec i' i); simpl;
    try rewrite andb_false_r; try reflexivity.
  destruct H; contradiction.
Qed.

Lemma add_J_loop_off_row (n : nat) (f : nat -> R)
  (J : Z -> Z -> nat -> nat -> R) (peqn pvar : Z) (i : nat)
  (a b : Z) (i' j' : nat) :
  a <> peqn \/ i' <> i ->
  for_loop n (fun j J => add_J J peqn pvar i j (f j)) J a b i' j'
    = J a b i' j'.
Proof.
  intros H.
  apply (for_loop_invariant (fun J' => J' a b i' j' = J a b i' j'));
    [reflexivity|].
  intros j J' _ HJ. rewrite add_J_off_row; assumption.
Qed.

Lemma jac_EMF_off_row (K : Consts) (G : Env) (eqn em_var : Z)
  (c : Coefficients) (i : nat) (J : Z -> Z -> nat -> nat -> R)
  (a b : Z) (i' j' : nat) :
  a <> upd_ep G eqn \/ i' <> i ->
  jac_EMF K G eqn em_var c i J a b i' j' = J a b i' j'.
Proof.
  intros H. unfold jac_EMF. cbv zeta.
  destruct (truthy (pd_v G em_var)); [|reflexivity].
  apply add_J_loop_off_row with
    (f := fun j => if advection_on K G eqn
                   then (0 + phi (bf G eqn) i * emf_coeff c
                             * phi (bf G em_var) j
                             * detJ (bf G eqn) * fv_wt G)
                        * fv_h3 G * pd_etm G eqn (LOG2_ADVECTION K)
                   else 0).
  exact H.
Qed.

Lemma jac_EMF_conj_off_row (K : Consts) (G : Env) (eqn em_conjvar : Z)
  (c : Coefficients) (i : nat) (J : Z -> Z -> nat -> nat -> R)
  (a b : Z) (i' j' : nat) :
  a <> upd_ep G eqn \/ i' <> i ->
  jac_EMF_conj K G eqn em_conjvar c i J a b i' j' = J a b i' j'.
Proof.
  intros H. unfold jac_EMF_conj. cbv zeta.
  destruct (truthy (pd_v G em_conjvar)); [|reflexivity].
  apply add_J_loop_off_row with
    (f := fun j => if advection_on K G eqn
                   then (0 + phi (bf G eqn) i * conj_coeff c
                             * phi (bf G em_conjvar) j
                             * detJ (bf G eqn) * fv_wt G)
                        * fv_h3 G * pd_etm G eqn (LOG2_ADVECTION K)
                   else 0).
  exact H.
Qed.

Lemma jac_cross_field_off_row (K : Consts) (G : Env) (eqn : Z)
  (c : Coefficients) (dir i : nat) (J : Z -> Z -> nat -> nat -> R)
  (g : nat -> R) (a b : Z) (i' j' : nat) :
  a <> upd_ep G eqn \/ i' <> i ->
  fst (jac_cross_field K G eqn c dir i (J, g)) a b i' j' = J a b i' j'.
Proof.
  intros H. unfold jac_cross_field. cbv zeta.
  apply (for_loop_invariant (fun st => fst st a b i' j' = J a b i' j'));
    [reflexivity|].
  intros b0 st _ Hst.
  destruct (truthy (pd_v G (cross_field_var c + Z.of_nat b0))); [|exact Hst].
  apply (for_loop_invariant (fun st => fst st a b i' j' = J a b i' j'));
    [exact Hst|].
  intros j [J' g'] _ HJ. simpl in HJ.
  destruct (diffusion_on K G eqn); simpl; [|exact HJ].
  rewrite add_J_off_row; assumption.
Qed.

Lemma jac_T_off_row (K : Consts) (G : Env) (eqn : Z) (c : Coefficients)
  (EMF EMF_conj : R) (d_n d_k : CONDUCTIVITY_DEPENDENCE_STRUCT) (i : nat)
  (J : Z -> Z -> nat -> nat -> R) (a b : Z) (i' j' : nat) :
  a <> upd_ep G eqn \/ i' <> i ->
  jac_T K G eqn c EMF EMF_conj d_n d_k i J a b i' j' = J a b i' j'.
Proof.
  intros H. unfold jac_T. cbv zeta.
  destruct (truthy (pd_v G (TEMPERATURE K))); [|reflexivity].
  apply (for_loop_invariant (fun J' => J' a b i' j' = J a b i' j'));
    [reflexivity|].
  intros j J' _ HJ. rewrite add_J_off_row; assumption.
Qed.

Lemma jac_mesh_off_row (K : Consts) (G : Env) (eqn : Z) (c : Coefficients)
  (EMF EMF_conj : R) (d_n d_k : CONDUCTIVITY_DEPENDENCE_STRUCT) (i : nat)
  (g : nat -> R) (J : Z -> Z -> nat -> nat -> R)
  (a b : Z) (i' j' : nat) :
  a <> upd_ep G eqn \/ i' <> i ->
  jac_mesh K G eqn c EMF EMF_conj d_n d_k i g J a b i' j' = J a b i' j'.
Proof.
  intros H. unfold jac_mesh. cbv zeta.
  apply (for_loop_invariant (fun J' => J' a b i' j' = J a b i' j'));
    [reflexivity|].
  intros b0 J' _ HJ.
  destruct (truthy (pd_v G (MESH_DISPLACEMENT1 K + Z.of_nat b0)));
    [|exact HJ].
  apply (for_loop_invariant (fun J' => J' a b i' j' = J a b i' j'));
    [exact HJ|].
  intros j J'' _ HJ'. rewrite add_J_off_row; assumption.
Qed.

Lemma jac_species_off_row (K : Consts) (G : Env) (eqn : Z)
  (c : Coefficients) (EMF EMF_conj : R)
  (d_n d_k : CONDUCTIVITY_DEPENDENCE_STRUCT) (i : nat)
  (J : Z -> Z -> nat -> nat -> R) (a b : Z) (i' j' : nat) :
  a <> upd_ep G eqn \/ i' <> i ->
  jac_species K G eqn c EMF EMF_conj d_n d_k i J a b i' j' = J a b i' j'.
Proof.
  intros H. unfold jac_species. cbv zeta.
  destruct (truthy (pd_e G eqn) && truthy (pd_v G (MASS_FRACTION K)));
    [|reflexivity].
  apply (for_loop_invariant (fun J' => J' a b i' j' = J a b i' j'));
    [reflexivity|].
  intros w J' _ HJ.
  apply (for_loop_invariant (fun J' => J' a b i' j' = J a b i' j'));
    [exact HJ|].
  intros j J'' _ HJ'. rewrite add_J_off_row; assumption.
Qed.

Lemma jacobian_loop_frame (K : Consts) (G : Env)
  (eqn em_var em_conjvar : Z) (c : Coefficients) (EMF EMF_conj : R)
  (dir : nat) (d_n d_k : CONDUCTIVITY_DEPENDENCE_STRUCT)
  (J : Z -> Z -> nat -> nat -> R) (g : nat -> R)
  (a b : Z) (i' j' : nat) :
  a <> upd_ep G eqn \/ (ei_dof G eqn <= i')%nat ->
  fst (jacobian_loop K G eqn em_var em_conjvar c EMF EMF_conj dir d_n d_k
         (J, g)) a b i' j' = J a b i' j'.
Proof.
  intros H. unfold jacobian_loop.
  apply (for_loop_invariant (fun st => fst st a b i' j' = J a b i' j'));
    [reflexivity|].
  intros i [J' g'] Hi HJ. simpl in HJ.
  assert (Hrow : a <> upd_ep G eqn \/ i' <> i) by (destruct H; [left|right]; [assumption|lia]).
  destruct (xfem_skips G eqn i); [exact HJ|].
  destruct (jac_cross_field K G eqn c dir i _) as [J2 g2] eqn:Hcf.
  simpl fst.
  rewrite jac_species_off_row, jac_mesh_off_row, jac_T_off_row by exact Hrow.
  change J2 with (fst (J2, g2)). rewrite <- Hcf.
  rewrite jac_cross_field_off_row, jac_EMF_conj_off_row, jac_EMF_off_row
    by exact Hrow.
  exact HJ.
Qed.

(* ------------------------------------------------------------------ *)
(** ** What [assemble_emwave] leaves alone *)

(** X14. [assemble_emwave] writes residual entries only in the row
    [upd->ep[eqn]] and only for the dofs of the equation, and only when the
    residual is requested: every other residual entry is returned
    unchanged, whatever the selector and the status. *)
Theorem assemble_emwave_residual_frame (K : Consts) (G : Env)
  (time tt dt : R) (em_eqn em_var em_conjvar : Z) (U : Emwave_Uninit)
  (lec : Local_Element_Contributions) (pe : Z) (i : nat) :
  af_Assemble_Residual G = 0%Z \/ pe <> upd_ep G em_eqn
    \/ (ei_dof G em_eqn <= i)%nat ->
  lec_R (snd (assemble_emwave K G time tt dt em_eqn em_var em_conjvar U lec))
    pe i = lec_R lec pe i.
Proof.
  intros H. unfold assemble_emwave.
  destruct (truthy (pd_e G em_eqn)); simpl; [|reflexivity].
  destruct (refractive_index G time) as [n d_n].
  destruct (extinction_index G time) as [k d_k].
  destruct (em_field_switch K G em_var) as [[[EMF EMF_conj] dir]|];
    [|reflexivity].
  destruct (em_coeff_switch K G em_var _ n k _ _) as [c|]; [|reflexivity].
  destruct (truthy (af_Assemble_Residual G)) eqn:Hres.
  - pose proof (residual_loop_entries K G em_eqn c EMF EMF_conj dir
                  (lec_R lec)
                  (for_loop DIM (fun i g => upd g i 0) (grad_phi_i_0 U))
                  pe i) as Hloop.
    destruct (residual_loop K G em_eqn c EMF EMF_conj dir _) as [Rv g1].
    destruct (if truthy (af_Assemble_Jacobian G) then _ else _) as [J g2].
    simpl in *. rewrite Hloop.
    destruct H as [H|[H|H]].
    + unfold truthy in Hres. rewrite H in Hres. discriminate.
    + apply Z.eqb_neq in H. rewrite H. reflexivity.
    + apply Nat.ltb_ge in H. rewrite H, andb_false_r. reflexivity.
  - destruct (if truthy (af_Assemble_Jacobian G) then _ else _) as [J g2].
    reflexivity.
Qed.

Lemma assemble_emwave_residual_frame_witness :
  lec_R (snd (assemble_emwave demo_consts advection_env 0 0 0 1 1 4
                demo_emwave_uninit zero_lec)) 1 1 = lec_R zero_lec 1 1.
Proof.
  apply assemble_emwave_residual_frame. right; right. simpl; lia.
Defined.

(** X15. [assemble_emwave] writes Jacobian entries only in the row
    [upd->ep[eqn]] and only for the dofs of the equation, and only when the
    Jacobian is requested: every other Jacobian entry is returned
    unchanged, whatever the selector and the status. *)
Theorem assemble_emwave_jacobian_frame (K : Consts) (G : Env)
  (time tt dt : R) (em_eqn em_var em_conjvar : Z) (U : Emwave_Uninit)
  (lec : Local_Element_Contributions) (a b : Z) (i j : nat) :
  af_Assemble_Jacobian G = 0%Z \/ a <> upd_ep G em_eqn
    \/ (ei_dof G em_eqn <= i)%nat ->
  lec_J (snd (assemble_emwave K G time tt dt em_eqn em_var em_conjvar U lec))
    a b i j = lec_J lec a b i j.
Proof.
  intros H. unfold assemble_emwave.
  destruct (truthy (pd_e G em_eqn)); simpl; [|reflexivity].
  destruct (refractive_index G time) as [n d_n].
  destruct (extinction_index G time) as [k d_k].
  destruct (em_field_switch K G em_var) as [[[EMF EMF_conj] dir]|];
    [|reflexivity].
  destruct (em_coeff_switch K G em_var _ n k _ _) as [c|]; [|reflexivity].
  destruct (if truthy (af_Assemble_Residual G) then _ else _) as [Rv g1].
  destruct (truthy (af_Assemble_Jacobian G)) eqn:Hjac.
  - pose proof (jacobian_loop_frame K G em_eqn em_var em_conjvar c EMF
                  EMF_conj dir d_n d_k (lec_J lec) g1 a b i j) as Hloop.
    destruct (jacobian_loop K G em_eqn em_var em_conjvar c EMF EMF_conj
                dir d_n d_k _) as [J g2].
    simpl in *. apply Hloop.
    destruct H as [H|[H|H]]; [|left; exact H|right; exact H].
    unfold truthy in Hjac. rewrite H in Hjac. discriminate.
  - reflexivity.
Qed.

Lemma assemble_emwave_jacobian_frame_witness :
  lec_J (snd (assemble_emwave demo_consts (mesh_env 1 1 1 1 1 (fun _ _ => 1))
                0 0 0 1 1 4 demo_emwave_uninit zero_lec)) 2 30 0 0
    = lec_J zero_lec 2 30 0 0.
Proof.
  apply assemble_emwave_jacobian_frame. right; left. simpl; lia.
Defined.

(** X16. When the xfem guard skips every dof of the equation (in
    particular when the equation has no dof on the element) the
    accumulator comes back exactly as it went in, with both assemblies
    requested or not. *)
Theorem assemble_emwave_all_skipped (K : Consts) (G : Env)
  (time tt dt : R) (em_eqn em_var em_conjvar : Z) (U : Emwave_Uninit)
  (lec : Local_Element_Contributions) :
  (forall i, (i < ei_dof G em_eqn)%nat -> xfem_skips G em_eqn i = true) ->
  snd (assemble_emwave K G time tt dt em_eqn em_var em_conjvar U lec) = lec.
Proof.
  intros Hskip. unfold assemble_emwave.
  destruct (truthy (pd_e G em_eqn)); simpl; [|reflexivity].
  destruct (refractive_index G time) as [n d_n].
  destruct (extinction_index G time) as [k d_k].
  destruct (em_field_switch K G em_var) as [[[EMF EMF_conj] dir]|];
    [|reflexivity].
  destruct (em_coeff_switch K G em_var _ n k _ _) as [c|]; [|reflexivity].
  assert (HR : forall st,
             residual_loop K G em_eqn c EMF EMF_conj dir st = st).
  { intros [Rv g]. unfold residual_loop. cbv zeta.
    apply for_loop_fixed. intros i Hi. rewrite (Hskip i Hi). reflexivity. }
  assert (HJ : forall st,
             jacobian_loop K G em_eqn em_var em_conjvar c EMF EMF_conj dir
               d_n d_k st = st).
  { intros [J g]. unfold jacobian_loop.
    apply for_loop_fixed. intros i Hi. rewrite (Hskip i Hi). reflexivity. }
  destruct (truthy (af_Assemble_Residual G)),
           (truthy (af_Assemble_Jacobian G));
    rewrite ?HR; cbv beta iota; rewrite ?HJ; destruct lec; reflexivity.
Qed.

Lemma assemble_emwave_all_skipped_witness :
  snd (assemble_emwave demo_consts xfem_env 0 0 0 1 1 4
         demo_emwave_uninit zero_lec) = zero_lec.
Proof.
  apply assemble_emwave_all_skipped. intros i _. reflexivity.
Defined.

(** X17. The accumulator is added to and never reset: a second call with
    the same arguments on the result of a first one leaves each residual
    entry of the equation at its initial value plus twice the
    contribution of one call. *)
Theorem assemble_emwave_twice (K : Consts) (G : Env) (time tt dt : R)
  (em_eqn em_var em_conjvar : Z) (U : Emwave_Uninit)
  (lec : Local_Element_Contributions)
  (EMF EMF_conj : R) (dir : nat) (c : Coefficients) (i : nat) :
  pd_e G em_eqn <> 0%Z ->
  af_Assemble_Residual G <> 0%Z ->
  em_field_switch K G em_var = Some (EMF, EMF_conj, dir) ->
  em_coeff_switch K G em_var (Acoustic_Frequency G)
    (fst (refractive_index G time)) (fst (extinction_index G time))
    (cpx_permittivity G (fst (refractive_index G time))
       (fst (extinction_index G time)))
    (cross_field_0 U) = Some c ->
  (i < ei_dof G em_eqn)%nat ->
  lec_R (snd (assemble_emwave K G time tt dt em_eqn em_var em_conjvar U
                (snd (assemble_emwave K G time tt dt em_eqn em_var
                        em_conjvar U lec))))
    (upd_ep G em_eqn) i
  = lec_R lec (upd_ep G em_eqn) i
    + 2 * (if xfem_skips G em_eqn i then 0
           else residual_formula K G em_eqn c EMF EMF_conj dir i).
Proof.
  intros He Hres Hf Hc Hi.
  destruct (assemble_emwave_lec_R K G time tt dt em_eqn em_var em_conjvar
              U lec EMF EMF_conj dir c (upd_ep G em_eqn) i He Hf Hc)
    as [_ H1].
  destruct (assemble_emwave_lec_R K G time tt dt em_eqn em_var em_conjvar
              U (snd (assemble_emwave K G time tt dt em_eqn em_var
                        em_conjvar U lec))
              EMF EMF_conj dir c (upd_ep G em_eqn) i He Hf Hc)
    as [_ H2].
  cbv zeta in H1, H2. rewrite H2, H1.
  unfold truthy. apply Z.eqb_neq in Hres. rewrite Hres.
  rewrite Z.eqb_refl, (proj2 (Nat.ltb_lt _ _) Hi). simpl.
  destruct (xfem_skips G em_eqn i); simpl; ring.
Qed.

Lemma assemble_emwave_twice_witness :
  exists c,
    em_coeff_switch demo_consts advection_env 1 1 1 1
      (cpx_permittivity advection_env 1 1) zero_vec = Some c
    /\ lec_R (snd (assemble_emwave demo_consts advection_env 0 0 0 1 1 4
                     demo_emwave_uninit
                     (snd (assemble_emwave demo_consts advection_env 0 0 0
                             1 1 4 demo_emwave_uninit zero_lec)))) 1 0
       = 0 + 2 * (if xfem_skips advection_env 1 0 then 0
                  else residual_formula demo_consts advection_env 1 c
                         1 1 0 0).
Proof.
  eexists. split; [reflexivity|].
  refine (assemble_emwave_twice demo_consts advection_env 0 0 0
            1 1 4 demo_emwave_uninit zero_lec 1 1 0 _ 0
            _ _ eq_refl eq_refl _).
  - simpl; lia.
  - simpl; lia.
  - simpl; lia.
Defined.

(* ------------------------------------------------------------------ *)
(** ** The Jacobian blocks against the residual *)

Lemma jac_EMF_central_difference_witness :
  residual_formula demo_consts coupled_env 1 sample_coefficients
    (3 + 2 * phi (bf coupled_env 1) 0) 4 0 0
  - residual_formula demo_consts coupled_env 1 sample_coefficients
      (3 - 2 * phi (bf coupled_env 1) 0) 4 0 0
  = 2 * 2 * (jac_EMF demo_consts coupled_env 1 1 sample_coefficients 0
               (lec_J zero_lec) (upd_ep coupled_env 1)
               (upd_vp coupled_env 1) 0 0
             - lec_J zero_lec (upd_ep coupled_env 1)
                 (upd_vp coupled_env 1) 0 0).
Proof.
  apply jac_EMF_central_difference; simpl; lia.
Defined.

Lemma jac_EMF_conj_central_difference_witness :
  residual_formula demo_consts coupled_env 1 sample_coefficients
    3 (4 + 2 * phi (bf coupled_env 4) 0) 0 0
  - residual_formula demo_consts coupled_env 1 sample_coefficients
      3 (4 - 2 * phi (bf coupled_env 4) 0) 0 0
  = 2 * 2 * (jac_EMF_conj demo_consts coupled_env 1 4 sample_coefficients 0
               (lec_J zero_lec) (upd_ep coupled_env 1)
               (upd_vp coupled_env 4) 0 0
             - lec_J zero_lec (upd_ep coupled_env 1)
                 (upd_vp coupled_env 4) 0 0).
Proof.
  apply jac_EMF_conj_central_difference; simpl; lia.
Defined.

Lemma Rsum_diff_scal (n : nat) (A B C : nat -> R) (c : R) :
  (forall p, A p - B p = c * C p) ->
  Rsum n A - Rsum n B = c * Rsum n C.
Proof.
  intros H. induction n as [|n IH]; simpl; [ring|].
  pose proof (H n) as Hn. rewrite Rmult_plus_distr_l. lra.
Qed.

Lemma curl_delta_loop_sum (G : Env) (dir b : nat) (g : nat -> R)
  (phi_j : R) :
  curl_delta_loop G dir b g phi_j
    = - Rsum (VIM G) (fun p => Rsum (VIM G) (fun q =>
          IZR (permute p q dir) * g p * IZR (delta q b) * phi_j)).
Proof.
  unfold curl_delta_loop.
  rewrite (for_loop_minus2 (VIM G) (VIM G)
             (fun p q => IZR (permute p q dir) * g p * IZR (delta q b)
                         * phi_j)).
  ring.
Qed.

(** X20. The integrand of the cross-field Jacobian block is the exact
    derivative of the curl term: moving dof [j] of component [b] of the
    cross field by [h] moves [cross_field[q]] by [h * delta(q,b) * phi_j],
    and the central difference of the curl loop is [2 h] times the loop
    with [delta(q,b) * phi_j] in place of the field. *)
Theorem curl_delta_loop_central_difference (G : Env) (dir b : nat)
  (g w : nat -> R) (phi_j h : R) :
  curl_loop G dir g (fun q => w q + h * (IZR (delta q b) * phi_j))
  - curl_loop G dir g (fun q => w q - h * (IZR (delta q b) * phi_j))
  = 2 * h * curl_delta_loop G dir b g phi_j.
Proof.
  rewrite !curl_loop_sum, curl_delta_loop_sum.
  pose proof (Rsum_diff_scal (VIM G)
    (fun p => Rsum (VIM G) (fun q =>
       IZR (permute p q dir) * g p
       * (w q + h * (IZR (delta q b) * phi_j))))
    (fun p => Rsum (VIM G) (fun q =>
       IZR (permute p q dir) * g p
       * (w q - h * (IZR (delta q b) * phi_j))))
    (fun p => Rsum (VIM G) (fun q =>
       IZR (permute p q dir) * g p * IZR (delta q b) * phi_j))
    (2 * h)) as Hsum.
  rewrite <- Ropp_mult_distr_r, <- Hsum; [ring|].
  intros p. apply Rsum_diff_scal. intros q. ring.
Qed.

(** X21. With the vector dimension [VIM = 3] the curl term of the residual
    is minus the component [dir] of the cross product of [grad_phi_i] with
    the cross field, as [complex_cross_vectors] computes it. *)
Theorem curl_loop_cross_product (G : Env) (dir : nat) (g w : nat -> R)
  (out : nat -> complex) :
  VIM G = 3%nat ->
  (dir < DIM)%nat ->
  curl_loop G dir g w
    = - creal (complex_cross_vectors (to_complex g) (to_complex w) out dir).
Proof.
  unfold DIM. intros HV Hd. unfold curl_loop. rewrite HV.
  destruct dir as [|[|[|dir]]]; try lia;
    unfold complex_cross_vectors, to_complex, for_loop, memset0, upd, DIM;
    simpl; ring.
Qed.

Lemma curl_loop_cross_product_witness :
  curl_loop coupled_env 2 unit_x unit_y
    = - creal (complex_cross_vectors (to_complex unit_x)
                 (to_complex unit_y) zero_cvec 2).
Proof.
  apply curl_loop_cross_product; [reflexivity | unfold DIM; lia].
Defined.

(* ------------------------------------------------------------------ *)
(** ** The H equations *)

Lemma em_coeff_switch_H_zeros (K : Consts) (G : Env) (em_var : Z)
  (omega n k : R) (eps : complex) (cf0 : nat -> R) (c : Coefficients) :
  E_real_selector K em_var = false ->
  E_imag_selector K em_var = false ->
  em_coeff_switch K G em_var omega n k eps cf0 = Some c ->
  emf_coeff c = 0 /\ emf_coeff_dn c = 0 /\ emf_coeff_dk c = 0
  /\ conj_coeff_dn c = 0 /\ conj_coeff_dk c = 0.
Proof.
  unfold E_real_selector, E_imag_selector, em_coeff_switch.
  intros -> -> Hc.
  destruct ((em_var =? EM_H1_REAL K)%Z || (em_var =? EM_H2_REAL K)%Z
            || (em_var =? EM_H3_REAL K)%Z);
    [|destruct ((em_var =? EM_H1_IMAG K)%Z || (em_var =? EM_H2_IMAG K)%Z
                || (em_var =? EM_H3_IMAG K)%Z); [|discriminate]];
    injection Hc as <-; simpl; repeat split; reflexivity.
Qed.

(** X22. For an H selector the Jacobian has no self-coupling and no
    material coupling: the primary-variable block, the temperature block
    and the species block leave every Jacobian entry as it was. *)
Theorem assemble_emwave_H_blocks_vanish (K : Consts) (G : Env)
  (eqn em_var : Z) (omega n k : R) (eps : complex) (cf0 : nat -> R)
  (c : Coefficients) (EMF EMF_conj : R)
  (d_n d_k : CONDUCTIVITY_DEPENDENCE_STRUCT) (i : nat)
  (J : Z -> Z -> nat -> nat -> R) (a b : Z) (i' j' : nat) :
  E_real_selector K em_var = false ->
  E_imag_selector K em_var = false ->
  em_coeff_switch K G em_var omega n k eps cf0 = Some c ->
  jac_EMF K G eqn em_var c i J a b i' j' = J a b i' j'
  /\ jac_T K G eqn c EMF EMF_conj d_n d_k i J a b i' j' = J a b i' j'
  /\ jac_species K G eqn c EMF EMF_conj d_n d_k i J a b i' j'
     = J a b i' j'.
Proof.
  intros Hr Hi Hc.
  destruct (em_coeff_switch_H_zeros K G em_var omega n k eps cf0 c Hr Hi Hc)
    as (H1 & H2 & H3 & H4 & H5).
  split; [|split].
  - unfold jac_EMF. cbv zeta.
    destruct (truthy (pd_v G em_var)); [|reflexivity].
    apply (for_loop_invariant (fun J' => J' a b i' j' = J a b i' j'));
      [reflexivity|].
    intros j J' _ HJ. rewrite add_J_lookup, HJ, H1.
    destruct (_ && _ && _ && _); [|reflexivity].
    destruct (advection_on K G eqn); ring.
  - unfold jac_T. cbv zeta.
    destruct (truthy (pd_v G (TEMPERATURE K))); [|reflexivity].
    apply (for_loop_invariant (fun J' => J' a b i' j' = J a b i' j'));
      [reflexivity|].
    intros j J' _ HJ. rewrite add_J_lookup, HJ, H2, H3, H4, H5.
    destruct (_ && _ && _ && _); [|reflexivity].
    destruct (advection_on K G eqn); ring.
  - unfold jac_species. cbv zeta.
    destruct (truthy (pd_e G eqn) && truthy (pd_v G (MASS_FRACTION K)));
      [|reflexivity].
    apply (for_loop_invariant (fun J' => J' a b i' j' = J a b i' j'));
      [reflexivity|].
    intros w J' _ HJ.
    apply (for_loop_invariant (fun J' => J' a b i' j' = J a b i' j'));
      [exact HJ|].
    intros j J'' _ HJ'. rewrite add_J_lookup, HJ', H2, H3, H4, H5.
    destruct (_ && _ && _ && _); [|reflexivity].
    destruct (advection_on K G eqn); ring.
Qed.

Lemma assemble_emwave_H_blocks_vanish_witness :
  exists c,
    em_coeff_switch demo_consts coupled_env 8 1 2 1
      (cpx_permittivity coupled_env 2 1) zero_vec = Some c
    /\ jac_T demo_consts coupled_env 8 c 3 4 no_dependence no_dependence 0
         (lec_J zero_lec) 8 20 0 0 = lec_J zero_lec 8 20 0 0.
Proof.
  eexists. split; [reflexivity|].
  refine (proj1 (proj2 (assemble_emwave_H_blocks_vanish demo_consts
                          coupled_env 8 8 1 2 1
                          (cpx_permittivity coupled_env 2 1) zero_vec _
                          3 4 no_dependence no_dependence 0
                          (lec_J zero_lec) 8 20 0 0
                          eq_refl eq_refl eq_refl))).
Defined.

(* ------------------------------------------------------------------ *)
(** ** The Jacobian of [apply_em_farfield_direct] *)

Lemma set_d_func_lookup (d : nat -> Z -> nat -> R) (p : nat) (v : Z)
  (j : nat) (x : R) (p' : nat) (v' : Z) (j' : nat) :
  set_d_func d p v j x p' v' j'
    = if (p' =? p)%nat && (v' =? v)%Z && (j' =? j)%nat
      then x else d p' v' j'.
Proof.
  unfold set_d_func, upd, updZ.
  destruct (Nat.eqb_spec p' p) as [->|]; simpl; [|reflexivity].
  destruct (Z.eqb_spec v' v) as [->|]; simpl; [|reflexivity].
  destruct (Nat.eqb_spec j' j) as [->|]; reflexivity.
Qed.

Lemma set_d_func_other_var (d : nat -> Z -> nat -> R) (p : nat) (v : Z)
  (j : nat) (x : R) (p' : nat) (v' : Z) (j' : nat) :
  v' <> v -> set_d_func d p v j x p' v' j' = d p' v' j'.
Proof.
  intros H. rewrite set_d_func_lookup.
  apply Z.eqb_neq in H. rewrite H, andb_false_r. reflexivity.
Qed.

Lemma apply_em_farfield_direct_d_func (K : Consts) (G : Env)
  (U : Farfield_Uninit) (func : nat -> R) (d_func : nat -> Z -> nat -> R)
  (xi : nat -> R) (bc_name : Z) (bc_data : nat -> R) :
  ff_d_func (apply_em_farfield_direct K G U func d_func xi bc_name bc_data)
    = if truthy (af_Assemble_Jacobian G)
      then farfield_jacobian K G U bc_name bc_data
             (snd (fst (fst (emit K U bc_name
                               (cpx_func K G U bc_name bc_data) func))))
             (snd (fst (emit K U bc_name
                          (cpx_func K G U bc_name bc_data) func)))
             (snd (emit K U bc_name (cpx_func K G U bc_name bc_data) func))
             d_func
      else d_func.
Proof.
  unfold apply_em_farfield_direct.
  destruct (emit K U bc_name _ func) as [[[f v] re] im]. reflexivity.
Qed.

Lemma emit_var (K : Consts) (U : Farfield_Uninit) (bc_name : Z)
  (cf : nat -> complex) (func : nat -> R) :
  snd (fst (fst (emit K U bc_name cf func))) = coupled_var K U bc_name.
Proof.
  unfold emit, coupled_var.
  repeat match goal with |- context [if ?b then _ else _] => destruct b end;
    reflexivity.
Qed.

(** The far-field Jacobian writes only slots of the variables
    [var, ..., var + Num_Dim - 1]. *)
Lemma farfield_jacobian_other_var (K : Consts) (G : Env)
  (U : Farfield_Uninit) (bc_name : Z) (bc_data : nat -> R) (var : Z)
  (real imag : R) (d_func : nat -> Z -> nat -> R)
  (p : nat) (v : Z) (j : nat) :
  (v < var \/ var + Z.of_nat (Num_Dim G) <= v)%Z ->
  farfield_jacobian K G U bc_name bc_data var real imag d_func p v j
    = d_func p v j.
Proof.
  intros Hv. unfold farfield_jacobian. cbv zeta.
  destruct (is_E_kind K bc_name); [|destruct (is_H_kind K bc_name)];
    [| |reflexivity].
  - apply (for_loop_invariant (fun d => d p v j = d_func p v j));
      [reflexivity|].
    intros g d Hg Hd.
    apply (for_loop_invariant (fun d => d p v j = d_func p v j));
      [exact Hd|]. intros p0 d0 _ Hd0.
    apply (for_loop_invariant (fun d => d p v j = d_func p v j));
      [exact Hd0|]. intros q d1 _ Hd1.
    apply (for_loop_invariant (fun d => d p v j = d_func p v j));
      [exact Hd1|]. intros r d2 _ Hd2.
    apply (for_loop_invariant (fun d => d p v j = d_func p v j));
      [exact Hd2|]. intros j0 d3 _ Hd3.
    rewrite set_d_func_other_var; [exact Hd3 | lia].
  - apply (for_loop_invariant (fun d => d p v j = d_func p v j));
      [reflexivity|].
    intros g d Hg Hd.
    destruct (truthy (pd_v G (var + Z.of_nat g))); [|exact Hd].
    apply (for_loop_invariant (fun d => d p v j = d_func p v j));
      [exact Hd|]. intros p0 d0 _ Hd0.
    apply (for_loop_invariant (fun d => d p v j = d_func p v j));
      [exact Hd0|]. intros j0 d1 _ Hd1.
    rewrite set_d_func_other_var; [exact Hd1 | lia].
Qed.

(** X23. [apply_em_farfield_direct] writes [d_func] only when the Jacobian
    is requested, and then only in the slots of the [Num_Dim] consecutive
    variables that start at the one the kind selects ([EM_E1_REAL],
    [EM_E1_IMAG], [EM_H1_REAL] or [EM_H1_IMAG]): every other entry is
    returned unchanged. *)
Theorem farfield_d_func_frame (K : Consts) (G : Env) (U : Farfield_Uninit)
  (func : nat -> R) (d_func : nat -> Z -> nat -> R) (xi : nat -> R)
  (bc_name : Z) (bc_data : nat -> R) (p : nat) (v : Z) (j : nat) :
  af_Assemble_Jacobian G = 0%Z
  \/ (v < coupled_var K U bc_name)%Z
  \/ (coupled_var K U bc_name + Z.of_nat (Num_Dim G) <= v)%Z ->
  ff_d_func (apply_em_farfield_direct K G U func d_func xi bc_name bc_data)
    p v j = d_func p v j.
Proof.
  intros H. rewrite apply_em_farfield_direct_d_func.
  destruct (truthy (af_Assemble_Jacobian G)) eqn:Hjac; [|reflexivity].
  rewrite emit_var. apply farfield_jacobian_other_var.
  destruct H as [H|[H|H]]; [|left; exact H|right; exact H].
  unfold truthy in Hjac. rewrite H in Hjac. discriminate.
Qed.

Lemma farfield_d_func_frame_witness :
  ff_d_func (apply_em_farfield_direct demo_consts farfield_jac_env
               demo_farfield_uninit zero_vec zero_d_func zero_vec 103
               bc_data_incident_x) 0 10 0 = zero_d_func 0%nat 10%Z 0%nat.
Proof.
  apply farfield_d_func_frame. right; right. simpl; lia.
Defined.

Lemma set_loop_j (nj : nat) (f : nat -> R) (d : nat -> Z -> nat -> R)
  (p : nat) (v : Z) (p' : nat) (v' : Z) (j' : nat) :
  for_loop nj (fun j d => set_d_func d p v j (f j)) d p' v' j'
    = if (p' =? p)%nat && (v' =? v)%Z && (j' <? nj)%nat
      then f j' else d p' v' j'.
Proof.
  induction nj as [|n IH].
  - unfold for_loop; simpl. rewrite andb_false_r. reflexivity.
  - rewrite for_loop_S, set_d_func_lookup, IH.
    destruct ((p' =? p)%nat && (v' =? v)%Z); simpl; [|reflexivity].
    destruct (Nat.eqb_spec j' n), (Nat.ltb_spec j' n),
      (Nat.ltb_spec j' (S n)); try lia; subst; reflexivity.
Qed.

Lemma set_loop_pj (np nj : nat) (f : nat -> R)
  (d : nat -> Z -> nat -> R) (v : Z) (p' : nat) (v' : Z) (j' : nat) :
  for_loop np (fun p d =>
    for_loop nj (fun j d => set_d_func d p v j (f j)) d) d p' v' j'
    = if (p' <? np)%nat && (v' =? v)%Z && (j' <? nj)%nat
      then f j' else d p' v' j'.
Proof.
  induction np as [|n IH].
  - unfold for_loop; simpl. reflexivity.
  - rewrite for_loop_S, set_loop_j, IH.
    destruct (Nat.eqb_spec p' n), (Nat.ltb_spec p' n),
      (Nat.ltb_spec p' (S n)); try lia; simpl; try reflexivity;
      destruct ((v' =? v)%Z && (j' <? nj)%nat); reflexivity.
Qed.

Lemma set_loop_rj (nr nj : nat) (f : nat -> nat -> R)
  (d : nat -> Z -> nat -> R) (p : nat) (v : Z)
  (p' : nat) (v' : Z) (j' : nat) :
  for_loop nr (fun r d =>
    for_loop nj (fun j d => set_d_func d p v j (f r j)) d) d p' v' j'
    = if (p' =? p)%nat && (v' =? v)%Z && (j' <? nj)%nat && (0 <? nr)%nat
      then f (nr - 1)%nat j' else d p' v' j'.
Proof.
  induction nr as [|n IH].
  - unfold for_loop; simpl. rewrite andb_false_r. reflexivity.
  - rewrite for_loop_S, (set_loop_j nj (f n)), IH.
    destruct ((p' =? p)%nat && (v' =? v)%Z && (j' <? nj)%nat); simpl;
      [|reflexivity].
    rewrite Nat.sub_0_r. reflexivity.
Qed.

Lemma set_loop_qrj (nq nr nj : nat) (f : nat -> nat -> nat -> R)
  (d : nat -> Z -> nat -> R) (p : nat) (v : Z)
  (p' : nat) (v' : Z) (j' : nat) :
  for_loop nq (fun q d =>
    for_loop nr (fun r d =>
      for_loop nj (fun j d => set_d_func d p v j (f q r j)) d) d) d
    p' v' j'
    = if (p' =? p)%nat && (v' =? v)%Z && (j' <? nj)%nat && (0 <? nr)%nat
         && (0 <? nq)%nat
      then f (nq - 1)%nat (nr - 1)%nat j' else d p' v' j'.
Proof.
  induction nq as [|n IH].
  - unfold for_loop; simpl. rewrite andb_false_r. reflexivity.
  - rewrite for_loop_S, (set_loop_rj nr nj (f n)), IH.
    destruct ((p' =? p)%nat && (v' =? v)%Z && (j' <? nj)%nat
              && (0 <? nr)%nat); simpl; [|reflexivity].
    rewrite Nat.sub_0_r. reflexivity.
Qed.

(** Nested assignment loops whose last assignment to each slot stores 0. *)
Lemma set_loop_pqrj_zero (np nq nr nj : nat)
  (f : nat -> nat -> nat -> nat -> R)
  (d : nat -> Z -> nat -> R) (v : Z) (p' : nat) (v' : Z) (j' : nat) :
  (forall p j, f p (nq - 1)%nat (nr - 1)%nat j = 0) ->
  for_loop np (fun p d =>
    for_loop nq (fun q d =>
      for_loop nr (fun r d =>
        for_loop nj (fun j d => set_d_func d p v j (f p q r j)) d) d) d) d
    p' v' j'
    = if (p' <? np)%nat && (v' =? v)%Z && (j' <? nj)%nat && (0 <? nr)%nat
         && (0 <? nq)%nat
      then 0 else d p' v' j'.
Proof.
  intros Hf. induction np as [|n IH].
  - unfold for_loop; simpl. reflexivity.
  - rewrite for_loop_S, (set_loop_qrj nq nr nj (f n)), IH, Hf.
    destruct (Nat.eqb_spec p' n), (Nat.ltb_spec p' n),
      (Nat.ltb_spec p' (S n)); try lia; simpl; try reflexivity;
      destruct ((v' =? v)%Z && (j' <? nj)%nat && (0 <? nr)%nat
                && (0 <? nq)%nat); reflexivity.
Qed.

Lemma set_loop_gpqrj_zero (ng np nq nr nj : nat)
  (f : nat -> nat -> nat -> nat -> nat -> R)
  (d : nat -> Z -> nat -> R) (var : Z) (p' : nat) (v' : Z) (j' : nat) :
  (forall g p j, f g p (nq - 1)%nat (nr - 1)%nat j = 0) ->
  for_loop ng (fun g d =>
    for_loop np (fun p d =>
      for_loop nq (fun q d =>
        for_loop nr (fun r d =>
          for_loop nj (fun j d =>
            set_d_func d p (var + Z.of_nat g)%Z j (f g p q r j)) d) d) d) d)
    d p' v' j'
    = if (p' <? np)%nat && (var <=? v')%Z && (v' <? var + Z.of_nat ng)%Z
         && (j' <? nj)%nat && (0 <? nr)%nat && (0 <? nq)%nat
      then 0 else d p' v' j'.
Proof.
  intros Hf. induction ng as [|n IH].
  - unfold for_loop; simpl.
    destruct (p' <? np)%nat; simpl; [|reflexivity].
    destruct (Z.leb_spec var v'), (Z.ltb_spec v' (var + 0)); simpl;
      try reflexivity; lia.
  - rewrite for_loop_S.
    rewrite (set_loop_pqrj_zero np nq nr nj (f n) _ (var + Z.of_nat n)%Z)
      by (intros; apply Hf).
    rewrite IH.
    destruct (p' <? np)%nat; cbn [andb]; [|reflexivity].
    destruct (Z.eqb_spec v' (var + Z.of_nat n)), (Z.leb_spec var v'),
      (Z.ltb_spec v' (var + Z.of_nat n)),
      (Z.ltb_spec v' (var + Z.of_nat (S n))); try lia; cbn [andb];
      try reflexivity;
      destruct ((j' <? nj)%nat && (0 <? nr)%nat && (0 <? nq)%nat);
      reflexivity.
Qed.

Lemma permute_repeat (p q : nat) : permute p q q = 0%Z.
Proof.
  destruct p as [|[|[|p]]], q as [|[|[|q]]]; reflexivity.
Qed.

Lemma emit_real_imag (K : Consts) (U : Farfield_Uninit) (bc_name : Z)
  (cf : nat -> complex) (func : nat -> R) (z : complex) :
  is_E_kind K bc_name || is_H_kind K bc_name = true ->
  snd (fst (emit K U bc_name cf func)) * creal z
  + snd (emit K U bc_name cf func) * cimag z
  = emitted_part K bc_name z.
Proof.
  unfold is_E_kind, is_H_kind, emit, emitted_part. intros Hk.
  destruct (bc_name =? EM_ER_FARFIELD_DIRECT_BC K)%Z;
    [|destruct (bc_name =? EM_EI_FARFIELD_DIRECT_BC K)%Z;
      [|destruct (bc_name =? EM_HR_FARFIELD_DIRECT_BC K)%Z;
        [|destruct (bc_name =? EM_HI_FARFIELD_DIRECT_BC K)%Z;
          [|discriminate]]]];
    simpl; ring.
Qed.

(** X24. For an E-type kind with the Jacobian requested and
    non-degenerate impedances (neither impedance zero, their sum not
    zero), every entry [d_func[p][var + g][j]] with [p], [g] and [j] below
    [Num_Dim] is 0 on return: each is assigned once per pair [(q, r)] and
    the last assignment carries the vanishing symbol [permute(p, q, q)]. *)
Theorem farfield_E_jacobian_zero (K : Consts) (G : Env)
  (U : Farfield_Uninit) (func : nat -> R) (d_func : nat -> Z -> nat -> R)
  (xi : nat -> R) (bc_name : Z) (bc_data : nat -> R) (g p j : nat) :
  is_E_kind K bc_name = true ->
  af_Assemble_Jacobian G <> 0%Z ->
  impedance1 G <> RtoC 0 ->
  impedance2 G U bc_data <> RtoC 0 ->
  (impedance2 G U bc_data + impedance1 G)%C <> RtoC 0 ->
  (g < Num_Dim G)%nat -> (p < Num_Dim G)%nat -> (j < Num_Dim G)%nat ->
  ff_d_func (apply_em_farfield_direct K G U func d_func xi bc_name bc_data)
    p (coupled_var K U bc_name + Z.of_nat g)%Z j = 0.
Proof.
  intros HE Hjac _ _ _ Hg Hp Hj.
  rewrite apply_em_farfield_direct_d_func.
  unfold truthy. apply Z.eqb_neq in Hjac. rewrite Hjac.
  change (negb false) with true. cbv iota. rewrite emit_var.
  unfold farfield_jacobian. cbv zeta. rewrite HE.
  set (re := snd (fst (emit K U bc_name (cpx_func K G U bc_name bc_data)
                         func))).
  set (im := snd (emit K U bc_name (cpx_func K G U bc_name bc_data) func)).
  set (var := coupled_var K U bc_name).
  set (t := tau (impedance1 G) (impedance2 G U bc_data)).
  set (opg := (RtoC 1 + Gamma (impedance1 G) (impedance2 G U bc_data))%C).
  rewrite (set_loop_gpqrj_zero (Num_Dim G) (Num_Dim G) (Num_Dim G)
             (Num_Dim G) (Num_Dim G)
             (fun g p q r j =>
                re * creal (ZtoC (permute p q r) * t / opg * normal G U q
                            * ZtoC (delta q g)
                            * RtoC (phi (bf G (var + Z.of_nat g)%Z) j))%C
                + im * cimag (ZtoC (permute p q r) * t / opg * normal G U q
                              * ZtoC (delta q g)
                              * RtoC (phi (bf G (var + Z.of_nat g)%Z) j))%C)).
  - rewrite (proj2 (Nat.ltb_lt _ _) Hp), (proj2 (Nat.ltb_lt _ _) Hj).
    assert (H0 : (0 <? Num_Dim G)%nat = true) by (apply Nat.ltb_lt; lia).
    rewrite H0.
    destruct (Z.leb_spec var (var + Z.of_nat g)),
      (Z.ltb_spec (var + Z.of_nat g) (var + Z.of_nat (Num_Dim G)));
      try lia.
    reflexivity.
  - intros g0 p0 j0. rewrite permute_repeat.
    generalize (normal G U (Num_Dim G - 1)) as nq.
    generalize (ZtoC (delta (Num_Dim G - 1) g0)) as dq.
    generalize (RtoC (phi (bf G (var + Z.of_nat g0)%Z) j0)) as ph.
    intros ph dq nq. destruct t, opg, ph, dq, nq.
    unfold ZtoC, RtoC. simpl. unfold Rdiv. ring.
Qed.

Lemma farfield_E_jacobian_zero_witness :
  ff_d_func (apply_em_farfield_direct demo_consts farfield_jac_env
               demo_farfield_uninit zero_vec zero_d_func zero_vec 101
               bc_data_incident_x) 1
    (coupled_var demo_consts demo_farfield_uninit 101 + Z.of_nat 2)%Z 0 = 0.
Proof.
  destruct (sample_impedances bc_data_incident_x eq_refl) as [H1 H2].
  pose proof sqrt_mag_permeability_pos as Hpos.
  apply farfield_E_jacobian_zero.
  - reflexivity.
  - simpl; lia.
  - change (impedance1 farfield_jac_env)
      with (impedance1 farfield_field_env).
    rewrite H1. intros E. apply (f_equal creal) in E. simpl in E. lra.
  - change (impedance2 farfield_jac_env demo_farfield_uninit
              bc_data_incident_x)
      with (impedance2 farfield_field_env demo_farfield_uninit
              bc_data_incident_x).
    rewrite H2. intros E. apply (f_equal creal) in E. simpl in E. lra.
  - change (impedance1 farfield_jac_env)
      with (impedance1 farfield_field_env).
    change (impedance2 farfield_jac_env demo_farfield_uninit
              bc_data_incident_x)
      with (impedance2 farfield_field_env demo_farfield_uninit
              bc_data_incident_x).
    rewrite H1, H2. intros E. apply (f_equal creal) in E. simpl in E. lra.
  - simpl; lia.
  - simpl; lia.
  - simpl; lia.
Defined.

Lemma set_loop_gpj (ng np nj : nat) (f : Z -> nat -> R) (act : Z -> bool)
  (d : nat -> Z -> nat -> R) (var : Z) (p' : nat) (v' : Z) (j' : nat) :
  for_loop ng (fun g d =>
    if act (var + Z.of_nat g)%Z then
      for_loop np (fun p d =>
        for_loop nj (fun j d =>
          set_d_func d p (var + Z.of_nat g)%Z j
            (f (var + Z.of_nat g)%Z j)) d) d
    else d) d p' v' j'
    = if (p' <? np)%nat && (var <=? v')%Z && (v' <? var + Z.of_nat ng)%Z
         && act v' && (j' <? nj)%nat
      then f v' j' else d p' v' j'.
Proof.
  induction ng as [|n IH].
  - unfold for_loop; simpl.
    destruct (p' <? np)%nat; cbn [andb]; [|reflexivity].
    destruct (Z.leb_spec var v'), (Z.ltb_spec v' (var + 0)); cbn [andb];
      try reflexivity; lia.
  - rewrite for_loop_S.
    destruct (act (var + Z.of_nat n)%Z) eqn:Hact.
    + rewrite (set_loop_pj np nj (f (var + Z.of_nat n)%Z)), IH.
      destruct (p' <? np)%nat; cbn [andb]; [|reflexivity].
      destruct (Z.eqb_spec v' (var + Z.of_nat n)) as [Hv|Hv],
        (Z.leb_spec var v'), (Z.ltb_spec v' (var + Z.of_nat n)),
        (Z.ltb_spec v' (var + Z.of_nat (S n))); try lia; cbn [andb];
        try reflexivity.
      rewrite Hv, Hact. cbn [andb].
      destruct (j' <? nj)%nat; reflexivity.
    + rewrite IH.
      destruct (p' <? np)%nat; cbn [andb]; [|reflexivity].
      destruct (Z.eqb_spec v' (var + Z.of_nat n)) as [Hv|Hv],
        (Z.leb_spec var v'), (Z.ltb_spec v' (var + Z.of_nat n)),
        (Z.ltb_spec v' (var + Z.of_nat (S n))); try lia; cbn [andb];
        try reflexivity.
      rewrite Hv, Hact. reflexivity.
Qed.



(* ------------------------------------------------------------------ *)
(** ** The cross field *)

(** X26. The field that drives the curl term is the H field of the same
    part for an E selector and the E field of the same part for an H
    selector; the switch fills its first [VIM] components only and leaves
    the others as they were on entry. *)
Theorem em_coeff_switch_cross_field (K : Consts) (G : Env) (em_var : Z)
  (omega n k : R) (eps : complex) (cf0 : nat -> R) (c : Coefficients)
  (q : nat) :
  em_coeff_switch K G em_var omega n k eps cf0 = Some c ->
  cross_field c q
    = if (q <? VIM G)%nat
      then (if E_real_selector K em_var then fv_em_hr G
            else if E_imag_selector K em_var then fv_em_hi G
            else if H_real_selector K em_var then fv_em_er G
            else fv_em_ei G) q
      else cf0 q.
Proof.
  unfold em_coeff_switch, E_real_selector, E_imag_selector,
    H_real_selector.
  intros Hc.
  destruct ((em_var =? EM_E1_REAL K)%Z || (em_var =? EM_E2_REAL K)%Z
            || (em_var =? EM_E3_REAL K)%Z);
    [|destruct ((em_var =? EM_E1_IMAG K)%Z || (em_var =? EM_E2_IMAG K)%Z
                || (em_var =? EM_E3_IMAG K)%Z);
      [|destruct ((em_var =? EM_H1_REAL K)%Z || (em_var =? EM_H2_REAL K)%Z
                  || (em_var =? EM_H3_REAL K)%Z);
        [|destruct ((em_var =? EM_H1_IMAG K)%Z
                    || (em_var =? EM_H2_IMAG K)%Z
                    || (em_var =? EM_H3_IMAG K)%Z); [|discriminate]]]];
    injection Hc as <-; simpl; unfold load_cross_field;
    apply for_loop_upd_lookup.
Qed.

Lemma em_coeff_switch_cross_field_witness :
  exists c,
    em_coeff_switch demo_consts coupled_env 11 1 2 1
      (cpx_permittivity coupled_env 2 1) zero_vec = Some c
    /\ cross_field c 1 = fv_em_ei coupled_env 1.
Proof.
  eexists. split; [reflexivity|].
  exact (em_coeff_switch_cross_field demo_consts coupled_env 11 1 2 1
           (cpx_permittivity coupled_env 2 1) zero_vec _ 1 eq_refl).
Defined.
